(** * A shallow embedding of [src/utils.ts] of auth0-spa-js

    JavaScript strings are modelled as lists of UTF-16 code units ([list Z]);
    byte arrays as lists of [Z] in [0, 256).  Fallible operations return
    [option] ([None] is a thrown [URIError] / [TypeError]).  Event-driven code
    (iframe and popup flows) is modelled as a step function on an explicit
    world state; the heap of JavaScript objects used by [fetchWithTimeout]
    is an stdpp [gmap]. *)

From Stdlib Require Import ZArith List String Ascii Bool Lia.
From stdpp Require Import gmap.
Import ListNotations.
Open Scope Z_scope.

(* ------------------------------------------------------------------ *)
(** ** JavaScript strings and values *)

Definition jsstr := list Z.

(** A string literal of the source, as its UTF-16 code units. *)
Definition js (s : string) : jsstr :=
  map (fun a => Z.of_nat (nat_of_ascii a)) (list_ascii_of_string s).

Definition jsstr_eqb (a b : jsstr) : bool :=
  bool_decide (a = b).

(** JavaScript numbers as produced by [parseInt]: [NaN] or an integer
    (the rounding of integers above 2^53 to the nearest double is not
    modelled, and -0 is identified with 0). *)
Inductive jsnum := JNaN | JInt (z : Z).

Inductive jsval :=
| JUndefined
| JNull
| JBool (b : bool)
| JNumber (n : jsnum)
| JString (s : jsstr)
| JRef (l : positive).          (* a reference to a heap object *)

(** ToBoolean. *)
Definition truthy (v : jsval) : bool :=
  match v with
  | JUndefined | JNull => false
  | JBool b => b
  | JNumber JNaN => false
  | JNumber (JInt z) => negb (z =? 0)
  | JString s => match s with [] => false | _ => true end
  | JRef _ => true
  end.

(** Plain objects: own properties in insertion order. *)
Definition jsobj := list (jsstr * jsval).

Fixpoint obj_get (o : jsobj) (k : jsstr) : option jsval :=
  match o with
  | [] => None
  | (k', v) :: t => if jsstr_eqb k k' then Some v else obj_get t k
  end.

(** [o[k] = v]: an existing property keeps its position. *)
Fixpoint obj_set (o : jsobj) (k : jsstr) (v : jsval) : jsobj :=
  match o with
  | [] => [(k, v)]
  | (k', v') :: t =>
      if jsstr_eqb k k' then (k', v) :: t else (k', v') :: obj_set t k v
  end.

(** [delete o[k]]. *)
Fixpoint obj_delete (o : jsobj) (k : jsstr) : jsobj :=
  match o with
  | [] => []
  | (k', v') :: t => if jsstr_eqb k k' then obj_delete t k else (k', v') :: obj_delete t k
  end.

(** [o.k] with [undefined] for a missing property. *)
Definition obj_read (o : jsobj) (k : jsstr) : jsval :=
  match obj_get o k with Some v => v | None => JUndefined end.

(** [str.split(sep)] for a one-code-unit separator. *)
Fixpoint split_on (sep : Z) (s : jsstr) : list jsstr :=
  match s with
  | [] => [[]]
  | c :: t =>
      if c =? sep then [] :: split_on sep t
      else match split_on sep t with
           | [] => [[c]]
           | p :: ps => (c :: p) :: ps
           end
  end.

(** [arr.join(sep)]. *)
Fixpoint join (sep : jsstr) (l : list jsstr) : jsstr :=
  match l with
  | [] => []
  | [x] => x
  | x :: t => x ++ sep ++ join sep t
  end.

(** The code units of WhiteSpace and LineTerminator: the [\s] class of
    regular expressions and the characters [trim] and [parseInt] skip. *)
Definition is_ws (c : Z) : bool :=
  existsb (Z.eqb c)
    [9; 10; 11; 12; 13; 32; 160; 5760; 8192; 8193; 8194; 8195; 8196; 8197;
     8198; 8199; 8200; 8201; 8202; 8232; 8233; 8239; 8287; 12288; 65279].

Fixpoint skip_ws (s : jsstr) : jsstr :=
  match s with
  | c :: t => if is_ws c then skip_ws t else s
  | [] => []
  end.

(** [str.trim()]. *)
Definition trim (s : jsstr) : jsstr := rev (skip_ws (rev (skip_ws s))).

(* ------------------------------------------------------------------ *)
(** ** [decodeURIComponent] (ECMAScript Decode with an empty reserved set) *)

Definition hex_val (c : Z) : option Z :=
  if (48 <=? c) && (c <=? 57) then Some (c - 48)
  else if (65 <=? c) && (c <=? 70) then Some (c - 55)
  else if (97 <=? c) && (c <=? 102) then Some (c - 87)
  else None.

(** One [%XY] escape at the head of the input: the octet and the rest. *)
Definition read_escape (s : jsstr) : option (Z * jsstr) :=
  match s with
  | c :: h :: l :: rest =>
      if c =? 37 then
        match hex_val h, hex_val l with
        | Some a, Some b => Some (a * 16 + b, rest)
        | _, _ => None
        end
      else None
  | _ => None
  end.

(** The number of leading one bits of an octet (5 stands for "more than 4"). *)
Definition lead_ones (b : Z) : nat :=
  if b <? 128 then 0 else if b <? 192 then 1 else if b <? 224 then 2
  else if b <? 240 then 3 else if b <? 248 then 4 else 5.

(** The [n] continuation octets of a multi-octet sequence, each [10xxxxxx]. *)
Fixpoint read_conts (n : nat) (s : jsstr) : option (list Z * jsstr) :=
  match n with
  | O => Some ([], s)
  | S n' =>
      match read_escape s with
      | Some (b, rest) =>
          if Z.land b 192 =? 128 then
            match read_conts n' rest with
            | Some (bs, rest') => Some (b :: bs, rest')
            | None => None
            end
          else None
      | None => None
      end
  end.

(** The code point of a lead octet with [n] leading ones and its
    continuation octets. *)
Definition utf8_value (n : nat) (b : Z) (cs : list Z) : Z :=
  fold_left (fun acc c => acc * 64 + Z.land c 63) cs
    (Z.land b (Z.shiftr 127 (Z.of_nat n))).

(** "Octets contain a valid UTF-8 encoding of a code point": not overlong,
    not a surrogate, not above U+10FFFF. *)
Definition utf8_valid (n : nat) (v : Z) : bool :=
  match n with
  | 2%nat => 128 <=? v
  | 3%nat => (2048 <=? v) && negb ((55296 <=? v) && (v <=? 57343))
  | 4%nat => (65536 <=? v) && (v <=? 1114111)
  | _ => false
  end.

(** UTF16EncodeCodePoint. *)
Definition utf16_encode_cp (v : Z) : jsstr :=
  if v <? 65536 then [v]
  else [55296 + (v - 65536) / 1024; 56320 + (v - 65536) mod 1024].

Fixpoint decode_fuel (fuel : nat) (s : jsstr) : option jsstr :=
  match fuel with
  | O => match s with [] => Some [] | _ => None end
  | S fuel' =>
      match s with
      | [] => Some []
      | c :: t =>
        if c =? 37 then
          match read_escape s with
          | None => None
          | Some (b, rest) =>
              match lead_ones b with
              | O =>
                  match decode_fuel fuel' rest with
                  | Some r => Some (b :: r)
                  | None => None
                  end
              | n =>
                  if (n =? 1)%nat || (4 <? n)%nat then None
                  else match read_conts (n - 1) rest with
                       | None => None
                       | Some (cs, rest') =>
                           let v := utf8_value n b cs in
                           if utf8_valid n v then
                             match decode_fuel fuel' rest' with
                             | Some r => Some (utf16_encode_cp v ++ r)
                             | None => None
                             end
                           else None
                       end
              end
          end
        else
          match decode_fuel fuel' t with
          | Some r => Some (c :: r)
          | None => None
          end
      end
  end.

(** [decodeURIComponent(s)]; [None] is a thrown [URIError]. *)
Definition decodeURIComponent (s : jsstr) : option jsstr :=
  decode_fuel (length s) s.

(* ------------------------------------------------------------------ *)
(** ** [parseInt(s)] with no radix *)

Definition digit_val (radix : Z) (c : Z) : option Z :=
  if (48 <=? c) && (c <=? 57) then Some (c - 48)
  else if radix =? 16 then
    if (65 <=? c) && (c <=? 70) then Some (c - 55)
    else if (97 <=? c) && (c <=? 102) then Some (c - 87)
    else None
  else None.

Fixpoint take_digits (radix : Z) (s : jsstr) : list Z :=
  match s with
  | c :: t => match digit_val radix c with
              | Some d => d :: take_digits radix t
              | None => []
              end
  | [] => []
  end.

Definition digits_value (radix : Z) (ds : list Z) : Z :=
  fold_left (fun acc d => acc * radix + d) ds 0.

(** An optional sign [-] or [+]. *)
Definition parse_sign (s : jsstr) : Z * jsstr :=
  match s with
  | c :: t => if c =? 45 then (-1, t) else if c =? 43 then (1, t) else (1, s)
  | [] => (1, s)
  end.

(** No radix was given: a [0x] or [0X] prefix selects 16, otherwise 10. *)
Definition parse_radix (s : jsstr) : Z * jsstr :=
  match s with
  | c :: x :: t =>
      if (c =? 48) && ((x =? 120) || (x =? 88)) then (16, t) else (10, s)
  | _ => (10, s)
  end.

Definition parseInt (s : jsstr) : jsnum :=
  let '(sign, s2) := parse_sign (skip_ws s) in
  let '(radix, s3) := parse_radix s2 in
  match take_digits radix s3 with
  | [] => JNaN
  | ds => JInt (sign * digits_value radix ds)
  end.

(** [ToString] of the values [parseInt] and [decodeURIComponent] receive. *)
Definition to_string (v : jsval) : jsstr :=
  match v with
  | JString s => s
  | JUndefined => js "undefined"
  | JNull => js "null"
  | JBool true => js "true"
  | JBool false => js "false"
  | _ => js "[object]"
  end.

(* ------------------------------------------------------------------ *)
(** ** [parseQueryResult] *)

(** [queryString.substr(0, queryString.indexOf('#'))] when a [#] occurs. *)
Fixpoint strip_fragment (s : jsstr) : jsstr :=
  match s with
  | [] => []
  | c :: t => if c =? 35 then [] else c :: strip_fragment t
  end.

(** [let [key, val] = qp.split('=')]: [val] is [undefined] without [=]. *)
Definition key_of (qp : jsstr) : jsstr := hd [] (split_on 61 qp).
Definition val_of (qp : jsstr) : jsval :=
  match tl (split_on 61 qp) with
  | v :: _ => JString v
  | [] => JUndefined
  end.

(** The [forEach] loop filling [parsedQuery].  Assigning a string to
    [parsedQuery['__proto__']] goes to the inherited setter, which ignores
    non-object values. *)
Fixpoint fill_query (parsedQuery : jsobj) (qps : list jsstr) : option jsobj :=
  match qps with
  | [] => Some parsedQuery
  | qp :: rest =>
      match decodeURIComponent (to_string (val_of qp)) with
      | None => None
      | Some d =>
          let key := key_of qp in
          fill_query
            (if jsstr_eqb key (js "__proto__") then parsedQuery
             else obj_set parsedQuery key (JString d)) rest
      end
  end.

Definition parsed_query (queryString : jsstr) : option jsobj :=
  fill_query [] (split_on 38 (strip_fragment queryString)).

(** [{...parsedQuery, expires_in: parseInt(parsedQuery.expires_in)}]. *)
Definition parseQueryResult (queryString : jsstr) : option jsobj :=
  match parsed_query queryString with
  | None => None
  | Some parsedQuery =>
      Some (obj_set parsedQuery (js "expires_in")
              (JNumber (parseInt (to_string (obj_read parsedQuery (js "expires_in"))))))
  end.


(* ------------------------------------------------------------------ *)
(** ** [getUniqueScopes] *)

(** [arr.indexOf(x)] ([-1] when absent). *)
Fixpoint index_of (x : jsstr) (l : list jsstr) : Z :=
  match l with
  | [] => -1
  | y :: t => if jsstr_eqb x y then 0 else
                let i := index_of x t in if i =? -1 then -1 else i + 1
  end.

(** [arr.filter((x, i) => p(x, i))]. *)
Fixpoint filter_idx (p : jsstr -> Z -> bool) (i : Z) (l : list jsstr) : list jsstr :=
  match l with
  | [] => []
  | x :: t => if p x i then x :: filter_idx p (i + 1) t else filter_idx p (i + 1) t
  end.

(** [const dedupe = arr => arr.filter((x, i) => arr.indexOf(x) === i)]. *)
Definition dedupe (arr : list jsstr) : list jsstr :=
  filter_idx (fun x i => index_of x arr =? i) 0 arr.

(** [s.replace(/\s/g, ',')]. *)
Definition ws_to_comma (s : jsstr) : jsstr :=
  map (fun c => if is_ws c then 44 else c) s.

Definition getUniqueScopes (scopes : list jsstr) : jsstr :=
  let scopeString := join (js ",") (filter (fun s => truthy (JString s)) scopes) in
  trim (join (js " ") (dedupe (split_on 44 (ws_to_comma scopeString)))).

(* ------------------------------------------------------------------ *)
(** ** [createRandomString] *)

Definition charset : jsstr :=
  js "0123456789ABCDEFGHIJKLMNOPQRSTUVWXYZabcdefghijklmnopqrstuvwxyz-_~.".

(** [charset[i]]: [undefined] (appended as the text "undefined") out of range. *)
Definition charset_at (i : Z) : jsstr :=
  match nth_error charset (Z.to_nat i) with
  | Some c => [c]
  | None => js "undefined"
  end.

(** [randomValues] is the content of the [Uint8Array(43)] filled by
    [getRandomValues]; the loop is
    [randomValues.forEach(v => (random += charset[v % charset.length]))]. *)
Definition createRandomString (randomValues : list Z) : jsstr :=
  fold_left (fun random v =>
               random ++ charset_at (v mod Z.of_nat (length charset)))
            randomValues [].

(** The unreserved alphabet of the spec: letters, digits and [-_~.]. *)
Definition unreserved (c : Z) : bool :=
  ((48 <=? c) && (c <=? 57)) || ((65 <=? c) && (c <=? 90))
  || ((97 <=? c) && (c <=? 122)) || (c =? 45) || (c =? 95) || (c =? 126)
  || (c =? 46).

(* ------------------------------------------------------------------ *)
(** ** The token exchange: [getJSON] *)

(** An [Error] object thrown by the transport: a [TypeError] of [fetch],
    an [AbortError], the [Error("Timeout when executing 'fetch'")] of
    [fetchWithTimeout], the [Error] built by [sendMessage] from a worker
    reply, or the [SyntaxError] of [response.json()].  All are objects,
    hence truthy. *)
Record js_error := { err_name : jsstr; err_message : jsstr }.

(** The decimal digits of a non-negative integer. *)
Fixpoint decimal_fuel (fuel : nat) (n : Z) (acc : jsstr) : jsstr :=
  match fuel with
  | O => acc
  | S f =>
      let acc' := (48 + n mod 10) :: acc in
      if n <? 10 then acc' else decimal_fuel f (n / 10) acc'
  end.

Definition decimal (n : Z) : jsstr := decimal_fuel (S (Z.to_nat (Z.log2 n))) n [].

(** Number::toString for the numbers of the model (integers print in
    plain decimal below 10^21). *)
Definition number_to_string (x : jsnum) : jsstr :=
  match x with
  | JNaN => js "NaN"
  | JInt z => if z <? 0 then 45 :: decimal (- z) else decimal z
  end.

(** [response.json]: the value [await response.json()] parses, or the
    [json] of a worker reply, which can be any JSON value.  An object or an
    array is given by its own enumerable properties (an array's are its
    indices), nested objects and arrays by reference. *)
Inductive json_body :=
| BodyNull
| BodyBool (b : bool)
| BodyNumber (x : jsnum)
| BodyString (s : jsstr)
| BodyObject (o : jsobj).

(** The value [fetchWithTimeout] resolves with: [{ok, json}]. *)
Record response := { ok : bool; json : json_body }.

(** The own enumerable properties of a string: its indices, each holding
    one code unit. *)
Definition string_props (s : jsstr) : jsobj :=
  combine (map (fun i => decimal (Z.of_nat i)) (seq 0 (length s)))
          (map (fun c => JString [c]) s).

(** What the pattern [json: {error, error_description, ...success}] reads
    [json] as.  [None] is the [TypeError] of destructuring [null]; a boolean
    or a number has no own properties, and neither it nor a string inherits
    an [error] or [error_description]; a string has its indices. *)
Definition body_props (j : json_body) : option jsobj :=
  match j with
  | BodyNull => None
  | BodyBool _ | BodyNumber _ => Some []
  | BodyString s => Some (string_props s)
  | BodyObject o => Some o
  end.

(** [ToString(v)] for a value read from a parsed body: [object_to_string l]
    is the string of the body's object or array [l] (["[object Object]"],
    or an array's elements joined with [,]), which for parsed JSON never
    throws. *)
Definition body_to_string (object_to_string : positive -> jsstr) (v : jsval) : jsstr :=
  match v with
  | JUndefined => js "undefined"
  | JNull => js "null"
  | JBool true => js "true"
  | JBool false => js "false"
  | JNumber x => number_to_string x
  | JString s => s
  | JRef l => object_to_string l
  end.

(** The outcome of one call of [fetchWithTimeout]. *)
Inductive attempt :=
| Rejected (e : js_error)
| Resolved (r : response).

(** The [Error] built for a non-ok response, with its two extra fields. *)
Record http_error := {
  he_message : jsstr;
  he_error : jsval;
  he_error_description : jsval
}.

(** What [getJSON] throws. *)
Inductive thrown :=
| NetworkError (e : js_error)      (* [throw fetchError] *)
| HttpError (e : http_error)       (* [throw e] for [!ok] *)
| DestructureError                 (* destructuring an undefined [response] *)
| NullBodyError.                   (* destructuring a [null] [response.json] *)

Inductive outcome :=
| Return (v : jsobj)
| Throw (t : thrown).

(** Modelled from the spec: [DEFAULT_SILENT_TOKEN_RETRY_COUNT], imported from
    [./constants] (not in the sources): "retry count for token exchange
    (default 3)". *)
Definition DEFAULT_SILENT_TOKEN_RETRY_COUNT : nat := 3.

(** The [for] loop of [getJSON].  [fetch i] is the outcome of the [i]-th
    call [fetchWithTimeout(url, options, worker, timeout)]; the result is
    [fetchError], [response] and the number of calls made. *)
Fixpoint fetch_loop (fetch : nat -> attempt) (remaining i : nat)
    (fetchError : option js_error) (resp : option response)
    : option js_error * option response * nat :=
  match remaining with
  | O => (fetchError, resp, i)
  | S rem =>
      match fetch i with
      | Resolved r => (None, Some r, S i)             (* fetchError = null; break *)
      | Rejected e => fetch_loop fetch rem (S i) (Some e) resp
      end
  end.

(** The code after the loop, for a [response] that was received;
    [new Error(errorMessage)] takes [ToString(errorMessage)] as message. *)
Definition respond (object_to_string : positive -> jsstr) (url : jsstr) (r : response)
    : outcome :=
  match body_props (json r) with
  | None => Throw NullBodyError
  | Some body =>
      let error := obj_read body (js "error") in
      let error_description := obj_read body (js "error_description") in
      let success := obj_delete (obj_delete body (js "error")) (js "error_description") in
      if negb (ok r) then
        let errorMessage :=
          if truthy error_description then error_description
          else JString (js "HTTP error. Unable to fetch " ++ url) in
        Throw (HttpError {| he_message := body_to_string object_to_string errorMessage;
                            he_error := if truthy error then error
                                        else JString (js "request_error");
                            he_error_description := errorMessage |})
      else Return success
  end.

(** [getJSON(url, timeout, options, worker)]: the outcome and the number of
    transport calls made. *)
Definition getJSON (object_to_string : positive -> jsstr) (url : jsstr)
    (fetch : nat -> attempt) : outcome * nat :=
  let '(fetchError, resp, calls) :=
    fetch_loop fetch DEFAULT_SILENT_TOKEN_RETRY_COUNT 0 None None in
  match fetchError with
  | Some e => (Throw (NetworkError e), calls)
  | None =>
      match resp with
      | Some r => (respond object_to_string url r, calls)
      | None => (Throw DestructureError, calls)
      end
  end.

(* ------------------------------------------------------------------ *)
(** ** [runIframe] and [runPopup]: event-driven flows *)

(** [e.data] of a [message] event: falsy, or a value with [.type] and
    [.response] ([None] is an undefined [response]). *)
Inductive msg_data :=
| DataFalsy
| DataObj (type_ : jsval) (response : option jsobj).

Record message_event := {
  ev_origin : jsstr;
  ev_data : msg_data;
  ev_has_source : bool        (* [e.source] is non-null *)
}.

(** [!e.data || e.data.type !== 'authorization_response'] is false. *)
Definition tagged (d : msg_data) : bool :=
  match d with
  | DataObj (JString t) _ => jsstr_eqb t (js "authorization_response")
  | _ => false
  end.

(** The state of the promise of an attempt: the first settlement wins. *)
Inductive promise_state :=
| Pending
| PFulfilled (v : jsobj)
| PRejected (v : jsobj).

Definition resolve_p (p : promise_state) (v : jsobj) : promise_state :=
  match p with Pending => PFulfilled v | _ => p end.
Definition reject_p (p : promise_state) (v : jsobj) : promise_state :=
  match p with Pending => PRejected v | _ => p end.

(** [const TIMEOUT_ERROR = { error: 'timeout', error_description: 'Timeout' }]. *)
Definition TIMEOUT_ERROR : jsobj :=
  [(js "error", JString (js "timeout"));
   (js "error_description", JString (js "Timeout"))].

(** The part of the world one iframe attempt touches. *)
Record iframe_state := {
  if_promise : promise_state;
  if_listeners : nat;       (* registrations of [iframeEventHandler] *)
  if_timers : nat;          (* pending [timeoutSetTimeoutId] *)
  if_cleanups : nat;        (* pending [setTimeout(removeIframe, ...)] *)
  if_in_body : bool;        (* [document.body.contains(iframe)] *)
  if_sources_closed : nat   (* calls of [eventSource.close()] *)
}.

(** The state when the executor of [runIframe]'s promise returns: the
    timeout is armed, the listener added, the iframe appended. *)
Definition runIframe_start : iframe_state :=
  {| if_promise := Pending; if_listeners := 1; if_timers := 1;
     if_cleanups := 0; if_in_body := true; if_sources_closed := 0 |}.

Inductive iframe_event :=
| IMessage (e : message_event)   (* a [message] event dispatched on [window] *)
| ITimeoutFires                  (* the authorize timeout callback runs *)
| ICleanupFires.                 (* a delayed [removeIframe] runs *)

(** [iframeEventHandler]: an undefined [e.data.response] throws a
    [TypeError] at [.error], after [eventSource.close()], and the handler
    stops there. *)
Definition iframeEventHandler (eventOrigin : jsstr) (s : iframe_state)
    (e : message_event) : iframe_state :=
  if negb (jsstr_eqb (ev_origin e) eventOrigin) then s
  else if negb (tagged (ev_data e)) then s
  else
    let closed := if ev_has_source e then S (if_sources_closed s)
                  else if_sources_closed s in
    match ev_data e with
    | DataObj _ (Some response) =>
        {| if_promise :=
             if truthy (obj_read response (js "error"))
             then reject_p (if_promise s) response
             else resolve_p (if_promise s) response;
           if_listeners := 0;                     (* removeEventListener *)
           if_timers := 0;                        (* clearTimeout *)
           if_cleanups := S (if_cleanups s);      (* setTimeout(removeIframe) *)
           if_in_body := if_in_body s;
           if_sources_closed := closed |}
    | _ =>
        {| if_promise := if_promise s; if_listeners := if_listeners s;
           if_timers := if_timers s; if_cleanups := if_cleanups s;
           if_in_body := if_in_body s; if_sources_closed := closed |}
    end.

Definition iframe_step (eventOrigin : jsstr) (s : iframe_state)
    (ev : iframe_event) : iframe_state :=
  match ev with
  | IMessage e =>
      if (0 <? if_listeners s)%nat then iframeEventHandler eventOrigin s e else s
  | ITimeoutFires =>
      if (0 <? if_timers s)%nat then
        {| if_promise := reject_p (if_promise s) TIMEOUT_ERROR;
           if_listeners := if_listeners s; if_timers := 0;
           if_cleanups := if_cleanups s;
           if_in_body := false;                   (* removeIframe() *)
           if_sources_closed := if_sources_closed s |}
      else s
  | ICleanupFires =>
      match if_cleanups s with
      | O => s
      | S n =>
          {| if_promise := if_promise s; if_listeners := if_listeners s;
             if_timers := if_timers s; if_cleanups := n;
             if_in_body := false;                 (* removeIframe() *)
             if_sources_closed := if_sources_closed s |}
      end
  end.

Definition run_iframe (eventOrigin : jsstr) (s : iframe_state)
    (evs : list iframe_event) : iframe_state :=
  fold_left (iframe_step eventOrigin) evs s.

(** The part of the world one popup attempt touches; [popup] is the
    window handle. *)
Record popup_state := {
  pp_popup : positive;
  pp_promise : promise_state;
  pp_listeners : nat;        (* registrations of the message listener *)
  pp_timers : nat;           (* pending [timeoutId] *)
  pp_close_calls : nat       (* calls of [popup.close()] *)
}.

(** [runPopup]: [popup] is [config.popup], or else the result of
    [openPopup]; without a handle it throws before creating the promise. *)
Definition runPopup_start (config_popup opened : option positive)
    : option popup_state :=
  let popup := match config_popup with Some p => Some p | None => opened end in
  match popup with
  | None => None                            (* throw new Error('Could not open popup') *)
  | Some p =>
      Some {| pp_popup := p; pp_promise := Pending; pp_listeners := 1;
              pp_timers := 1; pp_close_calls := 0 |}
  end.

Inductive popup_event :=
| PMessage (e : message_event)
| PTimeoutFires.

(** The anonymous listener of [runPopup]: it is never removed. *)
Definition popupEventHandler (s : popup_state) (e : message_event)
    : popup_state :=
  if negb (tagged (ev_data e)) then s
  else
    let s' := {| pp_popup := pp_popup s; pp_promise := pp_promise s;
                 pp_listeners := pp_listeners s; pp_timers := 0;
                 pp_close_calls := S (pp_close_calls s) |} in
    match ev_data e with
    | DataObj _ (Some response) =>
        {| pp_popup := pp_popup s;
           pp_promise :=
             if truthy (obj_read response (js "error"))
             then reject_p (pp_promise s) response
             else resolve_p (pp_promise s) response;
           pp_listeners := pp_listeners s; pp_timers := 0;
           pp_close_calls := S (pp_close_calls s) |}
    | _ => s'
    end.

(** [reject({ ...TIMEOUT_ERROR, popup })]. *)
Definition popup_timeout_error (popup : positive) : jsobj :=
  obj_set TIMEOUT_ERROR (js "popup") (JRef popup).

Definition popup_step (s : popup_state) (ev : popup_event) : popup_state :=
  match ev with
  | PMessage e =>
      if (0 <? pp_listeners s)%nat then popupEventHandler s e else s
  | PTimeoutFires =>
      if (0 <? pp_timers s)%nat then
        {| pp_popup := pp_popup s;
           pp_promise := reject_p (pp_promise s) (popup_timeout_error (pp_popup s));
           pp_listeners := pp_listeners s; pp_timers := 0;
           pp_close_calls := pp_close_calls s |}
      else s
  end.

Definition run_popup (s : popup_state) (evs : list popup_event) : popup_state :=
  fold_left popup_step evs s.

(* ------------------------------------------------------------------ *)
(** ** [fetchWithTimeout] and [switchFetch]: the objects they touch *)

(** The heap of JavaScript objects, by location. *)
Abbreviation heap := (gmap positive jsobj).

(** A new object at a location not in use. *)
Definition alloc (h : heap) (o : jsobj) : positive * heap :=
  let l := fresh (dom h) in (l, <[l := o]> h).

(** The own properties copied by a spread [...v]; spreading [undefined]
    or [null] copies nothing. *)
Definition spread (h : heap) (v : jsval) : jsobj :=
  match v with
  | JRef l => default [] (h !! l)
  | _ => []
  end.

(** [Object.assign]-like copy of [src]'s properties onto [target]. *)
Definition obj_assign (target src : jsobj) : jsobj :=
  fold_left (fun t kv => obj_set t (fst kv) (snd kv)) src target.

(** [switchFetch(url, opts, timeout, worker)] up to its first [await]:
    with a worker, [delete opts.signal] and the message
    [{ url, timeout, ...opts }] handed to [postMessage] (which clones it);
    without, [fetch(url, opts)] only reads [opts]. *)
Definition switchFetch (h : heap) (url : jsstr) (opts : positive)
    (timeout : Z) (worker : bool) : heap :=
  if worker then
    let h1 := <[opts := obj_delete (default [] (h !! opts)) (js "signal")]> h in
    snd (alloc h1 (obj_assign [(js "url", JString url);
                               (js "timeout", JNumber (JInt timeout))]
                              (default [] (h1 !! opts))))
  else h.

(** [fetchWithTimeout(url, options, worker, timeout)] up to the race: the
    abort controller and its signal, the copy
    [fetchOptions = { ...options, signal }] and the call of [switchFetch].
    The result is the heap and the location of the signal. *)
Definition fetchWithTimeout (h : heap) (url : jsstr) (options : jsval)
    (worker : bool) (timeout : Z) : heap * positive :=
  let '(signal, h1) := alloc h [(js "aborted", JBool false)] in
  let '(_, h2) := alloc h1 [(js "signal", JRef signal)] in
  let '(fetchOptions, h3) :=
    alloc h2 (obj_set (spread h2 options) (js "signal") (JRef signal)) in
  (switchFetch h3 url fetchOptions timeout worker, signal).

(** The timer of the race: [controller.abort()] marks the signal aborted. *)
Definition abort_signal (h : heap) (signal : positive) : heap :=
  match h !! signal with
  | Some o => <[signal := obj_set o (js "aborted") (JBool true)]> h
  | None => h
  end.

(** The heap after [fetchWithTimeout], with or without the timeout firing. *)
Definition fetchWithTimeout_after (h : heap) (url : jsstr) (options : jsval)
    (worker : bool) (timeout : Z) (timed_out : bool) : heap :=
  let '(h', signal) := fetchWithTimeout h url options worker timeout in
  if timed_out then abort_signal h' signal else h'.

(* ------------------------------------------------------------------ *)
(** ** Base64: [btoa], [atob] and the url-safe helpers *)

(** The base64 alphabet: [A-Z], [a-z], [0-9], [+], [/]. *)
Definition b64_char (i : Z) : Z :=
  if i <? 26 then 65 + i
  else if i <? 52 then 71 + i
  else if i <? 62 then i - 4
  else if i =? 62 then 43
  else 47.

Definition b64_index (c : Z) : option Z :=
  if (65 <=? c) && (c <=? 90) then Some (c - 65)
  else if (97 <=? c) && (c <=? 122) then Some (c - 71)
  else if (48 <=? c) && (c <=? 57) then Some (c + 4)
  else if c =? 43 then Some 62
  else if c =? 47 then Some 63
  else None.

(** Forgiving-base64 encode, with [=] padding. *)
Fixpoint b64_encode (l : list Z) : jsstr :=
  match l with
  | a :: b :: c :: t =>
      [b64_char (a / 4); b64_char ((a mod 4) * 16 + b / 16);
       b64_char ((b mod 16) * 4 + c / 64); b64_char (c mod 64)] ++ b64_encode t
  | [a; b] =>
      [b64_char (a / 4); b64_char ((a mod 4) * 16 + b / 16);
       b64_char ((b mod 16) * 4); 61]
  | [a] => [b64_char (a / 4); b64_char ((a mod 4) * 16); 61; 61]
  | [] => []
  end.

(** [btoa(s)]: an [InvalidCharacterError] for a code unit above 255. *)
Definition btoa (s : jsstr) : option jsstr :=
  if forallb (fun c => (0 <=? c) && (c <=? 255)) s then Some (b64_encode s)
  else None.

(** The 6-bit groups back to octets; 12 or 18 trailing bits give 1 or 2
    octets and their extra low bits are dropped. *)
Fixpoint b64_decode_sextets (l : list Z) : list Z :=
  match l with
  | a :: b :: c :: d :: t =>
      [a * 4 + b / 16; (b mod 16) * 16 + c / 4; (c mod 4) * 64 + d]
        ++ b64_decode_sextets t
  | [a; b; c] => [a * 4 + b / 16; (b mod 16) * 16 + c / 4]
  | [a; b] => [a * 4 + b / 16]
  | _ => []
  end.

Definition is_ascii_ws (c : Z) : bool :=
  (c =? 9) || (c =? 10) || (c =? 12) || (c =? 13) || (c =? 32).

Fixpoint map_option (f : Z -> option Z) (l : list Z) : option (list Z) :=
  match l with
  | [] => Some []
  | x :: t =>
      match f x, map_option f t with
      | Some y, Some ys => Some (y :: ys)
      | _, _ => None
      end
  end.

(** One or two final [=] removed. *)
Definition drop_padding (s : jsstr) : jsstr :=
  match rev s with
  | c1 :: r1 =>
      if c1 =? 61 then
        match r1 with
        | c2 :: r2 => if c2 =? 61 then rev r2 else rev r1
        | [] => rev r1
        end
      else s
  | [] => s
  end.

(** Forgiving-base64 decode: drop ASCII white space; when the length is a
    multiple of 4, drop one or two final [=]; fail on a length of the form
    [4k + 1] or on a character outside the alphabet. *)
Definition atob (s : jsstr) : option jsstr :=
  let s1 := List.filter (fun c => negb (is_ascii_ws c)) s in
  let s2 := if (Nat.modulo (length s1) 4 =? 0)%nat then drop_padding s1 else s1 in
  if (Nat.modulo (length s2) 4 =? 1)%nat then None
  else match map_option b64_index s2 with
       | Some sx => Some (b64_decode_sextets sx)
       | None => None
       end.

(** [const b64Chars = { '+': '-', '/': '_', '=': '' };
     input.replace(/[\+\/=]/g, m => b64Chars[m])]. *)
Definition urlEncodeB64 (input : jsstr) : jsstr :=
  flat_map (fun c => if c =? 43 then [45] else if c =? 47 then [95]
                     else if c =? 61 then [] else [c]) input.

(** [n.toString(16)] for a code unit [n] (below 65536). *)
Definition hex_digit (d : Z) : Z := if d <? 10 then 48 + d else 87 + d.

Definition toString16 (n : Z) : jsstr :=
  if n <? 16 then [hex_digit n]
  else if n <? 256 then [hex_digit (n / 16); hex_digit (n mod 16)]
  else if n <? 4096 then
    [hex_digit (n / 256); hex_digit ((n / 16) mod 16); hex_digit (n mod 16)]
  else [hex_digit (n / 4096); hex_digit ((n / 256) mod 16);
        hex_digit ((n / 16) mod 16); hex_digit (n mod 16)].

(** [str.slice(-2)]. *)
Definition slice_last2 (s : jsstr) : jsstr := skipn (length s - 2) s.

(** [c => '%' + ('00' + c.charCodeAt(0).toString(16)).slice(-2)]. *)
Definition pct (c : Z) : jsstr := 37 :: slice_last2 (js "00" ++ toString16 c).

(** [decodeB64]: [decodeURIComponent(atob(input).split('').map(pct).join(''))]. *)
Definition decodeB64 (input : jsstr) : option jsstr :=
  match atob input with
  | None => None
  | Some bin => decodeURIComponent (flat_map pct bin)
  end.

(** [input.replace(/_/g, '/').replace(/-/g, '+')]. *)
Definition urlUnsafe (input : jsstr) : jsstr :=
  map (fun c => if c =? 45 then 43 else c)
      (map (fun c => if c =? 95 then 47 else c) input).

Definition urlDecodeB64 (input : jsstr) : option jsstr :=
  decodeB64 (urlUnsafe input).

(** [bufferToBase64UrlEncoded]: [new Uint8Array(input)] takes each element
    modulo 256, [String.fromCharCode] makes one code unit per byte. *)
Definition bufferToBase64UrlEncoded (input : list Z) : option jsstr :=
  let ie11SafeInput := map (fun z => z mod 256) input in
  match btoa ie11SafeInput with
  | Some b => Some (urlEncodeB64 b)
  | None => None
  end.

(** UTF-8 encoding of a code point, the byte sequence whose decoding the
    round trip is about. *)
Definition utf8_encode_cp (cp : Z) : list Z :=
  if cp <? 128 then [cp]
  else if cp <? 2048 then [192 + cp / 64; 128 + cp mod 64]
  else if cp <? 65536 then
    [224 + cp / 4096; 128 + (cp / 64) mod 64; 128 + cp mod 64]
  else [240 + cp / 262144; 128 + (cp / 4096) mod 64;
        128 + (cp / 64) mod 64; 128 + cp mod 64].

Definition utf8_encode (cps : list Z) : list Z := flat_map utf8_encode_cp cps.

(** The JavaScript string (UTF-16) of a sequence of code points. *)
Definition utf16_encode (cps : list Z) : jsstr := flat_map utf16_encode_cp cps.

(** A Unicode scalar value: a code point that is not a surrogate. *)
Definition scalar_value (cp : Z) : Prop :=
  0 <= cp <= 1114111 /\ ~ (55296 <= cp <= 57343).


(** The 6-bit groups [b64_encode] turns into characters (before padding). *)
Fixpoint b64_sextets (l : list Z) : list Z :=
  match l with
  | a :: b :: c :: t =>
      [a / 4; (a mod 4) * 16 + b / 16; (b mod 16) * 4 + c / 64; c mod 64]
        ++ b64_sextets t
  | [a; b] => [a / 4; (a mod 4) * 16 + b / 16; (b mod 16) * 4]
  | [a] => [a / 4; (a mod 4) * 16]
  | [] => []
  end.

(* ------------------------------------------------------------------ *)
(** ** [encode] and [decode] *)

(** [export const encode = (value: string) => btoa(value)]. *)
Definition encode (value : jsstr) : option jsstr := btoa value.

(** [export const decode = (value: string) => atob(value)]. *)
Definition decode (value : jsstr) : option jsstr := atob value.

(* ------------------------------------------------------------------ *)
(** ** [createQueryParams] *)

(** A code unit of a JavaScript string. *)
Definition code_unit (c : Z) : Prop := 0 <= c < 65536.

(** The code units [encodeURIComponent] keeps: letters, digits and
    [-_.!~*'()]. *)
Definition uri_unescaped (c : Z) : bool :=
  ((48 <=? c) && (c <=? 57)) || ((65 <=? c) && (c <=? 90))
  || ((97 <=? c) && (c <=? 122))
  || existsb (Z.eqb c) [45; 95; 46; 33; 126; 42; 39; 40; 41].

(** An upper-case hexadecimal digit. *)
Definition hex_upper (d : Z) : Z := if d <? 10 then 48 + d else 55 + d.

(** [%XY] for an octet, with upper-case digits. *)
Definition esc_octet (b : Z) : jsstr := [37; hex_upper (b / 16); hex_upper (b mod 16)].

(** [encodeURIComponent(s)] (ECMAScript Encode): a surrogate pair is
    encoded as its code point, an unpaired surrogate throws a [URIError]
    ([None]). *)
Fixpoint encodeURIComponent (s : jsstr) : option jsstr :=
  match s with
  | [] => Some []
  | c :: t =>
      if uri_unescaped c then
        match encodeURIComponent t with Some r => Some (c :: r) | None => None end
      else if (55296 <=? c) && (c <=? 56319) then
        match t with
        | d :: t' =>
            if (56320 <=? d) && (d <=? 57343) then
              match encodeURIComponent t' with
              | Some r =>
                  Some (flat_map esc_octet
                          (utf8_encode_cp ((c - 55296) * 1024 + (d - 56320) + 65536))
                        ++ r)
              | None => None
              end
            else None
        | [] => None
        end
      else if (56320 <=? c) && (c <=? 57343) then None
      else
        match encodeURIComponent t with
        | Some r => Some (flat_map esc_octet (utf8_encode_cp c) ++ r)
        | None => None
        end
  end.

(** [typeof v === 'undefined']. *)
Definition typeof_undefined (v : jsval) : bool :=
  match v with JUndefined => true | _ => false end.

(** The key of an array index (CanonicalNumericIndexString below
    2^32 - 1): ["0"], or decimal digits without a leading zero. *)
Definition array_index_value (k : jsstr) : option Z :=
  match k with
  | [] => None
  | c :: _ =>
      if forallb (fun d => (48 <=? d) && (d <=? 57)) k
         && (negb (c =? 48) || (length k =? 1)%nat) then
        let n := digits_value 10 (map (fun d => d - 48) k) in
        if n <? 4294967295 then Some n else None
      else None
  end.

Fixpoint insert_by_index (kn : jsstr * Z) (l : list (jsstr * Z)) : list (jsstr * Z) :=
  match l with
  | [] => [kn]
  | kn' :: t => if snd kn <=? snd kn' then kn :: l else kn' :: insert_by_index kn t
  end.

(** [Object.keys(o)] (OrdinaryOwnPropertyKeys): the array-index keys in
    ascending numeric order, then the other keys in creation order. *)
Definition object_keys (o : jsobj) : list jsstr :=
  let ks := map fst o in
  map fst (fold_right insert_by_index []
             (flat_map (fun k => match array_index_value k with
                                 | Some n => [(k, n)]
                                 | None => []
                                 end) ks))
  ++ List.filter (fun k => match array_index_value k with
                           | Some _ => false
                           | None => true
                           end) ks.

(** [arr.map(f)] for an [f] that may throw: the first throw aborts. *)
Fixpoint traverse_opt {A B : Type} (f : A -> option B) (l : list A) : option (list B) :=
  match l with
  | [] => Some []
  | x :: t =>
      match f x with
      | None => None
      | Some y =>
          match traverse_opt f t with
          | Some ys => Some (y :: ys)
          | None => None
          end
      end
  end.

Section ToString.

(** [ToString] of an object runs its [toString] (or [valueOf]) method:
    the string that call returns, [None] when it throws. *)
Variable object_to_string : positive -> option jsstr.

(** [ToString(v)]. *)
Definition to_str_val (v : jsval) : option jsstr :=
  match v with
  | JUndefined => Some (js "undefined")
  | JNull => Some (js "null")
  | JBool true => Some (js "true")
  | JBool false => Some (js "false")
  | JNumber x => Some (number_to_string x)
  | JString s => Some s
  | JRef l => object_to_string l
  end.

(** [createQueryParams(params)]:
    [Object.keys(params).filter(k => typeof params[k] !== 'undefined')
       .map(k => encodeURIComponent(k) + '=' + encodeURIComponent(params[k]))
       .join('&')]. *)
Definition createQueryParams (params : jsobj) : option jsstr :=
  let ks := List.filter (fun k => negb (typeof_undefined (obj_read params k)))
                        (object_keys params) in
  match traverse_opt
          (fun k =>
             match encodeURIComponent k with
             | None => None
             | Some ek =>
                 match to_str_val (obj_read params k) with
                 | None => None
                 | Some sv =>
                     match encodeURIComponent sv with
                     | Some ev => Some (ek ++ [61] ++ ev)
                     | None => None
                     end
                 end
             end) ks with
  | Some parts => Some (join [38] parts)
  | None => None
  end.

(** The arguments [oauthToken] passes to [getJSON]: the url, the timeout
    and the options [{method, body, headers}], where [tr_body] is the
    object handed to [JSON.stringify]. *)
Record token_request := {
  tr_url : jsstr;
  tr_timeout : jsval;
  tr_method : jsstr;
  tr_body : jsobj;
  tr_content_type : jsstr
}.

(** [oauthToken({ baseUrl, timeout, ...options }, worker)]: the rest
    [options] holds every other own property;
    [`${baseUrl}/oauth/token`] converts [baseUrl] with [ToString];
    [origin] is [window.location.origin]. *)
Definition oauthToken_request (arg : jsobj) (origin : jsstr) : option token_request :=
  let options :=
    List.filter (fun kv => negb (jsstr_eqb (fst kv) (js "baseUrl"))
                           && negb (jsstr_eqb (fst kv) (js "timeout"))) arg in
  match to_str_val (obj_read arg (js "baseUrl")) with
  | None => None
  | Some baseUrl =>
      Some {| tr_url := baseUrl ++ js "/oauth/token";
              tr_timeout := obj_read arg (js "timeout");
              tr_method := js "POST";
              tr_body := obj_assign [(js "redirect_uri", JString origin)] options;
              tr_content_type := js "application/json" |}
  end.

(** [oauthToken]: the request, and the outcome of [getJSON] for it, whose
    [i]-th transport call has outcome [fetch i]; [body_object_to_string] is
    [ToString] of the objects of the response body. *)
Definition oauthToken (body_object_to_string : positive -> jsstr) (arg : jsobj)
    (origin : jsstr) (fetch : nat -> attempt)
    : option (token_request * (outcome * nat)) :=
  match oauthToken_request arg origin with
  | None => None
  | Some r => Some (r, getJSON body_object_to_string (tr_url r) fetch)
  end.

End ToString.

(* ------------------------------------------------------------------ *)
(** ** [getCrypto], [getCryptoSubtle] and [validateCrypto] *)

(** The two [window] properties the crypto helpers read. *)
Record window_crypto := { w_crypto : jsval; w_msCrypto : jsval }.

(** [v.p] for the properties read here ([subtle], [webkitSubtle]):
    [None] is the [TypeError] of a property read on [undefined] or [null];
    booleans, numbers and strings have no such property. *)
Definition get_prop (h : heap) (v : jsval) (p : jsstr) : option jsval :=
  match v with
  | JUndefined | JNull => None
  | JRef l => Some (obj_read (default [] (h !! l)) p)
  | _ => Some JUndefined
  end.

(** [getCrypto]: [window.crypto || window.msCrypto]. *)
Definition getCrypto (w : window_crypto) : jsval :=
  if truthy (w_crypto w) then w_crypto w else w_msCrypto w.

(** [getCryptoSubtle]: [crypto.subtle || crypto.webkitSubtle]. *)
Definition getCryptoSubtle (h : heap) (w : window_crypto) : option jsval :=
  let crypto := getCrypto w in
  match get_prop h crypto (js "subtle") with
  | None => None
  | Some s => if truthy s then Some s else get_prop h crypto (js "webkitSubtle")
  end.

(** How [validateCrypto] ends: it returns, throws one of its two errors,
    or a [TypeError] escapes from [getCryptoSubtle]. *)
Inductive crypto_check := CryptoOk | NoCrypto | InsecureOrigin | CryptoTypeError.

Definition validateCrypto (h : heap) (w : window_crypto) : crypto_check :=
  if negb (truthy (getCrypto w)) then NoCrypto
  else match getCryptoSubtle h w with
       | None => CryptoTypeError
       | Some s => if typeof_undefined s then InsecureOrigin else CryptoOk
       end.

(* ================================================================== *)
(** * Lemmas on the object model and [parseQueryResult] *)

Lemma jsstr_eqb_spec a b : jsstr_eqb a b = true <-> a = b.
Proof. unfold jsstr_eqb. apply bool_decide_eq_true. Qed.

Lemma obj_get_set o k v k' :
  obj_get (obj_set o k v) k' = if jsstr_eqb k' k then Some v else obj_get o k'.
Proof.
  induction o as [|[k0 v0] t IH]; simpl; [reflexivity|].
  destruct (jsstr_eqb k k0) eqn:E1; simpl.
  - apply jsstr_eqb_spec in E1. subst k0. now destruct (jsstr_eqb k' k).
  - rewrite IH. destruct (jsstr_eqb k' k0) eqn:E2; [|reflexivity].
    apply jsstr_eqb_spec in E2. subst k0.
    destruct (jsstr_eqb k' k) eqn:E3; [|reflexivity].
    apply jsstr_eqb_spec in E3. subst k'.
    assert (jsstr_eqb k k = true) by now apply jsstr_eqb_spec. congruence.
Qed.

Lemma obj_get_set_eq o k v : obj_get (obj_set o k v) k = Some v.
Proof. rewrite obj_get_set. unfold jsstr_eqb. now rewrite bool_decide_eq_true_2. Qed.

Lemma fill_query_none acc qps :
  fill_query acc qps = None <->
  exists qp, In qp qps /\ decodeURIComponent (to_string (val_of qp)) = None.
Proof.
  revert acc. induction qps as [|qp rest IH]; intros acc; simpl.
  - split; [discriminate | intros (? & [] & _)].
  - destruct (decodeURIComponent (to_string (val_of qp))) as [d|] eqn:E.
    + rewrite IH. split.
      * intros (qp' & Hin & H). eauto.
      * intros (qp' & [<-|Hin] & H); [congruence | eauto].
    + split; [intros _; eauto | reflexivity].
Qed.

Lemma fill_query_get acc qps r k :
  fill_query acc qps = Some r ->
  obj_get r k = obj_get acc k \/
  exists qp d, In qp qps /\ key_of qp = k /\
    decodeURIComponent (to_string (val_of qp)) = Some d /\
    obj_get r k = Some (JString d).
Proof.
  revert acc. induction qps as [|qp rest IH]; intros acc H; simpl in H.
  - injection H as <-. now left.
  - destruct (decodeURIComponent (to_string (val_of qp))) as [d|] eqn:E;
      [|discriminate].
    destruct (IH _ H) as [Hg | (qp' & d' & Hin & Hk & Hd & Hg)].
    + destruct (jsstr_eqb (key_of qp) (js "__proto__")); [now left|].
      rewrite Hg, obj_get_set.
      destruct (jsstr_eqb k (key_of qp)) eqn:Ek; [|now left].
      apply jsstr_eqb_spec in Ek. right. exists qp, d. simpl. intuition congruence.
    + right. exists qp', d'. simpl. intuition.
Qed.



Lemma charset_at_in_range i :
  0 <= i < 66 -> charset_at i = [nth (Z.to_nat i) charset 0].
Proof.
  intros H. unfold charset_at.
  rewrite (nth_error_nth' charset 0); [reflexivity|].
  change (length charset) with 66%nat. lia.
Qed.

Lemma fold_append_map (g : Z -> Z) (l : list Z) (acc : jsstr) :
  fold_left (fun random v => random ++ charset_at (v mod Z.of_nat (length charset))) l acc
  = acc ++ map (fun v => nth (Z.to_nat (v mod 66)) charset 0) l.
Proof.
  revert acc. induction l as [|v t IH]; intros acc; simpl.
  - now rewrite app_nil_r.
  - rewrite IH. change (Z.of_nat (length charset)) with 66.
    rewrite charset_at_in_range by (apply Z.mod_pos_bound; lia).
    now rewrite <- app_assoc.
Qed.

Lemma unreserved_bound c : unreserved c = true -> 0 <= c < 128.
Proof.
  unfold unreserved. intros H.
  repeat (apply orb_true_iff in H; destruct H as [H|H]);
    try (apply andb_true_iff in H; destruct H as [H1 H2];
         apply Z.leb_le in H1; apply Z.leb_le in H2; lia);
    apply Z.eqb_eq in H; lia.
Qed.

Lemma charset_unreserved c : In c charset <-> unreserved c = true.
Proof.
  split.
  - intros H. assert (Hall : forallb unreserved charset = true) by (vm_compute; reflexivity).
    rewrite forallb_forall in Hall. now apply Hall.
  - intros H. pose proof (unreserved_bound c H) as Hb.
    assert (Hchk : forallb (fun c => implb (unreserved c) (existsb (Z.eqb c) charset))
                     (map Z.of_nat (seq 0 128)) = true) by (vm_compute; reflexivity).
    rewrite forallb_forall in Hchk.
    specialize (Hchk c). rewrite H in Hchk. cbn [implb] in Hchk.
    assert (Hin : In c (map Z.of_nat (seq 0 128))).
    { apply in_map_iff. exists (Z.to_nat c). split; [lia|].
      apply in_seq. lia. }
    specialize (Hchk Hin). apply existsb_exists in Hchk.
    destruct Hchk as (x & Hx & Heq). apply Z.eqb_eq in Heq. now subst.
Qed.



Lemma obj_get_delete o k k' :
  obj_get (obj_delete o k) k' = if jsstr_eqb k' k then None else obj_get o k'.
Proof.
  induction o as [|[k0 v0] t IH]; simpl.
  - now destruct (jsstr_eqb k' k).
  - destruct (jsstr_eqb k k0) eqn:E1; simpl.
    + apply jsstr_eqb_spec in E1. subst k0. rewrite IH.
      now destruct (jsstr_eqb k' k).
    + rewrite IH. destruct (jsstr_eqb k' k0) eqn:E2; [|reflexivity].
      apply jsstr_eqb_spec in E2. subst k0.
      destruct (jsstr_eqb k' k) eqn:E3; [|reflexivity].
      apply jsstr_eqb_spec in E3. subst k'.
      assert (jsstr_eqb k k = true) by now apply jsstr_eqb_spec. congruence.
Qed.

Lemma jsstr_eqb_neq a b : a <> b -> jsstr_eqb a b = false.
Proof.
  intros H. destruct (jsstr_eqb a b) eqn:E; [|reflexivity].
  apply jsstr_eqb_spec in E. contradiction.
Qed.

Lemma jsstr_eqb_refl a : jsstr_eqb a a = true.
Proof. now apply jsstr_eqb_spec. Qed.

Lemma run_iframe_app o s l1 l2 :
  run_iframe o s (l1 ++ l2) = run_iframe o (run_iframe o s l1) l2.
Proof. unfold run_iframe. apply fold_left_app. Qed.

Lemma run_popup_app s l1 l2 :
  run_popup s (l1 ++ l2) = run_popup (run_popup s l1) l2.
Proof. unfold run_popup. apply fold_left_app. Qed.

(** A message from another origin, or not tagged as an authorization
    response, leaves the iframe attempt as it is. *)
Lemma iframe_step_foreign o s e :
  ev_origin e <> o \/ tagged (ev_data e) = false ->
  iframe_step o s (IMessage e) = s.
Proof.
  intros H. simpl. destruct (0 <? if_listeners s)%nat; [|reflexivity].
  unfold iframeEventHandler.
  destruct H as [H|H].
  - now rewrite jsstr_eqb_neq.
  - rewrite H. now destruct (jsstr_eqb _ _).
Qed.

Lemma run_iframe_foreign o s es :
  Forall (fun e => ev_origin e <> o \/ tagged (ev_data e) = false) es ->
  run_iframe o s (map IMessage es) = s.
Proof.
  intros H. revert s. induction H as [|e es He Hes IH]; intros s; [reflexivity|].
  unfold run_iframe in *. cbn [map fold_left]. rewrite iframe_step_foreign by exact He.
  apply IH.
Qed.

Lemma popup_step_untagged s e :
  tagged (ev_data e) = false -> popup_step s (PMessage e) = s.
Proof.
  intros H. simpl. destruct (0 <? pp_listeners s)%nat; [|reflexivity].
  unfold popupEventHandler. now rewrite H.
Qed.

Lemma run_popup_untagged s es :
  Forall (fun e => tagged (ev_data e) = false) es ->
  run_popup s (map PMessage es) = s.
Proof.
  intros H. revert s. induction H as [|e es He Hes IH]; intros s; [reflexivity|].
  unfold run_popup in *. cbn [map fold_left]. rewrite popup_step_untagged by exact He.
  apply IH.
Qed.









(** [h'] keeps every object of [h] as it was. *)
Definition frame (h h' : heap) : Prop :=
  forall l o, h !! l = Some o -> h' !! l = Some o.

Lemma frame_refl h : frame h h.
Proof. intros l o H. exact H. Qed.

Lemma frame_trans h1 h2 h3 : frame h1 h2 -> frame h2 h3 -> frame h1 h3.
Proof. intros H12 H23 l o H. auto. Qed.

Lemma frame_insert_new h h' l v :
  frame h h' -> h' !! l = None -> frame h (<[l := v]> h').
Proof.
  intros Hf Hn l' o H. destruct (decide (l = l')) as [<-|Hne].
  - apply Hf in H. congruence.
  - rewrite lookup_insert_ne by exact Hne. auto.
Qed.

Lemma alloc_fresh h o : h !! fst (alloc h o) = None.
Proof. unfold alloc. simpl. apply not_elem_of_dom. apply is_fresh. Qed.

Lemma frame_insert_outside h0 h l v :
  frame h0 h -> h0 !! l = None -> frame h0 (<[l := v]> h).
Proof.
  intros Hf Hn l' o H. destruct (decide (l = l')) as [<-|Hne]; [congruence|].
  rewrite lookup_insert_ne by exact Hne. auto.
Qed.

Lemma alloc_frame h o : frame h (snd (alloc h o)).
Proof.
  pose proof (alloc_fresh h o) as Hf. unfold alloc in *. simpl in *.
  apply frame_insert_new; [apply frame_refl | exact Hf].
Qed.

Lemma frame_none h h' l : frame h h' -> h' !! l = None -> h !! l = None.
Proof.
  intros Hf Hn. destruct (h !! l) as [o|] eqn:E; [|reflexivity].
  apply Hf in E. congruence.
Qed.

Lemma switchFetch_frame h0 h url opts timeout worker :
  frame h0 h -> h0 !! opts = None ->
  frame h0 (switchFetch h url opts timeout worker).
Proof.
  intros Hf Hn. unfold switchFetch. destruct worker; [|exact Hf].
  eapply frame_trans; [|apply alloc_frame].
  now apply frame_insert_outside.
Qed.

Lemma abort_signal_frame h0 h signal :
  frame h0 h -> h0 !! signal = None -> frame h0 (abort_signal h signal).
Proof.
  intros Hf Hn. unfold abort_signal. destruct (h !! signal); [|exact Hf].
  now apply frame_insert_outside.
Qed.

(** *** The base64 layer *)

Lemma list_ind3 (P : list Z -> Prop) :
  P [] -> (forall a, P [a]) -> (forall a b, P [a; b]) ->
  (forall a b c t, P t -> P (a :: b :: c :: t)) -> forall l, P l.
Proof.
  intros H0 H1 H2 H3. fix IH 1.
  intros [|a [|b [|c t]]]; [exact H0 | apply H1 | apply H2 | apply H3, IH].
Qed.

Lemma range_check (n : nat) (P : Z -> bool) :
  forallb P (map Z.of_nat (seq 0 n)) = true ->
  forall b, 0 <= b < Z.of_nat n -> P b = true.
Proof.
  intros H b Hb. rewrite forallb_forall in H. apply H.
  apply in_map_iff. exists (Z.to_nat b). split; [lia|]. apply in_seq. lia.
Qed.

Definition sextet_ok (i : Z) : bool :=
  match b64_index (b64_char i) with Some j => j =? i | None => false end
  && negb (is_ascii_ws (b64_char i)) && negb (b64_char i =? 61)
  && jsstr_eqb (urlUnsafe (urlEncodeB64 [b64_char i])) [b64_char i].

Lemma sextet_facts i :
  0 <= i < 64 ->
  b64_index (b64_char i) = Some i /\ is_ascii_ws (b64_char i) = false
  /\ (b64_char i =? 61) = false
  /\ urlUnsafe (urlEncodeB64 [b64_char i]) = [b64_char i].
Proof.
  intros Hi.
  assert (H : sextet_ok i = true).
  { apply (range_check 64); [vm_compute; reflexivity | lia]. }
  unfold sextet_ok in H.
  destruct (b64_index (b64_char i)) as [j|]; [|discriminate].
  repeat rewrite andb_true_iff in H. destruct H as (((Hj & Hw) & H61) & Hu).
  apply Z.eqb_eq in Hj. apply negb_true_iff in Hw, H61.
  apply jsstr_eqb_spec in Hu. subst j. auto.
Qed.

Definition sextet (i : Z) : Prop := 0 <= i < 64.
Definition byte (b : Z) : Prop := 0 <= b < 256.

Lemma urlUnsafe_app a b : urlUnsafe (a ++ b) = urlUnsafe a ++ urlUnsafe b.
Proof. unfold urlUnsafe. now rewrite !map_app. Qed.

Lemma url_flat s :
  urlUnsafe (urlEncodeB64 s) = flat_map (fun c => urlUnsafe (urlEncodeB64 [c])) s.
Proof.
  induction s as [|c t IH]; [reflexivity|].
  assert (E : urlEncodeB64 (c :: t) = urlEncodeB64 [c] ++ urlEncodeB64 t).
  { unfold urlEncodeB64. simpl. now rewrite app_nil_r. }
  rewrite E, urlUnsafe_app, IH. reflexivity.
Qed.

Lemma url_flat_sextets sx :
  Forall sextet sx ->
  flat_map (fun c => urlUnsafe (urlEncodeB64 [c])) (map b64_char sx) = map b64_char sx.
Proof.
  induction 1 as [|i sx Hi Hsx IH]; [reflexivity|].
  cbn [map flat_map]. rewrite IH. destruct (sextet_facts i Hi) as (_ & _ & _ & Hu).
  rewrite Hu. reflexivity.
Qed.

Lemma url_pad : urlUnsafe (urlEncodeB64 [61]) = [].
Proof. reflexivity. Qed.

Lemma sextets_group a b c :
  byte a -> byte b -> byte c ->
  Forall sextet [a / 4; (a mod 4) * 16 + b / 16; (b mod 16) * 4 + c / 64; c mod 64].
Proof.
  unfold byte, sextet. intros Ha Hb Hc.
  repeat constructor; Z.div_mod_to_equations; lia.
Qed.

Lemma sextets_range l : Forall byte l -> Forall sextet (b64_sextets l).
Proof.
  induction l as [|a|a b|a b c t IH] using list_ind3; intros H.
  - constructor.
  - inversion_clear H as [|? ? Ha _]. simpl. unfold byte, sextet in *.
    repeat constructor; Z.div_mod_to_equations; lia.
  - inversion_clear H as [|? ? Ha H']. inversion_clear H' as [|? ? Hb _].
    simpl. unfold byte, sextet in *. repeat constructor; Z.div_mod_to_equations; lia.
  - inversion_clear H as [|? ? Ha H1]. inversion_clear H1 as [|? ? Hb H2].
    inversion_clear H2 as [|? ? Hc Ht].
    exact (proj2 (List.Forall_app _ _ _) (conj (sextets_group a b c Ha Hb Hc) (IH Ht))).
Qed.

Lemma url_encode_b64 l :
  Forall byte l -> urlUnsafe (urlEncodeB64 (b64_encode l)) = map b64_char (b64_sextets l).
Proof.
  intros H. rewrite url_flat.
  assert (Hpad : forall sx, Forall sextet sx ->
            flat_map (fun c => urlUnsafe (urlEncodeB64 [c])) (map b64_char sx ++ [61])
            = map b64_char sx).
  { intros sx Hsx. rewrite flat_map_app, url_flat_sextets by exact Hsx.
    cbn [flat_map]. rewrite url_pad. now rewrite !app_nil_r. }
  revert H. induction l as [|a|a b|a b c t IH] using list_ind3; intros H.
  - reflexivity.
  - pose proof (sextets_range _ H) as Hs. cbn [b64_encode b64_sextets] in Hs |- *.
    change [b64_char (a / 4); b64_char ((a mod 4) * 16); 61; 61]
      with ((map b64_char [a / 4; (a mod 4) * 16] ++ [61]) ++ [61]).
    rewrite flat_map_app, Hpad by exact Hs. cbn [flat_map].
    rewrite url_pad. now rewrite !app_nil_r.
  - pose proof (sextets_range _ H) as Hs. cbn [b64_encode b64_sextets] in Hs |- *.
    change [b64_char (a / 4); b64_char ((a mod 4) * 16 + b / 16);
            b64_char ((b mod 16) * 4); 61]
      with (map b64_char [a / 4; (a mod 4) * 16 + b / 16; (b mod 16) * 4] ++ [61]).
    now rewrite Hpad by exact Hs.
  - inversion_clear H as [|? ? Ha H1]. inversion_clear H1 as [|? ? Hb H2].
    inversion_clear H2 as [|? ? Hc Ht].
    simpl b64_encode. simpl b64_sextets.
    change (b64_char (a / 4) :: b64_char ((a mod 4) * 16 + b / 16)
            :: b64_char ((b mod 16) * 4 + c / 64) :: b64_char (c mod 64) :: b64_encode t)
      with (map b64_char [a / 4; (a mod 4) * 16 + b / 16;
                          (b mod 16) * 4 + c / 64; c mod 64] ++ b64_encode t).
    rewrite flat_map_app, IH by exact Ht.
    rewrite url_flat_sextets by (now apply sextets_group).
    reflexivity.
Qed.

Lemma filter_ws_sextets sx :
  Forall sextet sx ->
  List.filter (fun c => negb (is_ascii_ws c)) (map b64_char sx) = map b64_char sx.
Proof.
  induction 1 as [|i sx Hi _ IH]; [reflexivity|].
  destruct (sextet_facts i Hi) as (_ & Hw & _).
  cbn [map List.filter]. rewrite Hw, IH. reflexivity.
Qed.

Lemma drop_padding_sextets sx :
  Forall sextet sx -> drop_padding (map b64_char sx) = map b64_char sx.
Proof.
  intros H. unfold drop_padding.
  destruct (rev (map b64_char sx)) as [|c1 r1] eqn:E; [reflexivity|].
  assert (Hin : In c1 (map b64_char sx)).
  { apply in_rev. rewrite E. now left. }
  apply in_map_iff in Hin as (i & <- & Hi).
  rewrite List.Forall_forall in H.
  destruct (sextet_facts i (H i Hi)) as (_ & _ & H61 & _).
  now rewrite H61.
Qed.

Lemma map_option_sextets sx :
  Forall sextet sx -> map_option b64_index (map b64_char sx) = Some sx.
Proof.
  induction 1 as [|i sx Hi _ IH]; [reflexivity|].
  destruct (sextet_facts i Hi) as (Hix & _).
  cbn [map map_option]. rewrite Hix, IH. reflexivity.
Qed.

Lemma atob_sextets sx :
  Forall sextet sx -> (length sx mod 4 <> 1)%nat ->
  atob (map b64_char sx) = Some (b64_decode_sextets sx).
Proof.
  intros H Hl. unfold atob. rewrite filter_ws_sextets by exact H.
  destruct (Nat.modulo (length (map b64_char sx)) 4 =? 0)%nat;
    [rewrite drop_padding_sextets by exact H|];
    rewrite length_map; apply Nat.eqb_neq in Hl; rewrite Hl;
    rewrite map_option_sextets by exact H; reflexivity.
Qed.

Lemma b64_sextets_length l : (length (b64_sextets l) mod 4 <> 1)%nat.
Proof.
  induction l as [|a|a b|a b c t IH] using list_ind3; try (cbn; lia).
  cbn [b64_sextets]. rewrite length_app. cbn [length].
  replace (4 + length (b64_sextets t))%nat with (length (b64_sextets t) + 1 * 4)%nat
    by lia.
  now rewrite Nat.Div0.mod_add.
Qed.

Lemma decode_sextets_roundtrip l :
  Forall byte l -> b64_decode_sextets (b64_sextets l) = l.
Proof.
  induction l as [|a|a b|a b c t IH] using list_ind3; intros H.
  - reflexivity.
  - inversion_clear H as [|? ? Ha _]. unfold byte in *. cbn.
    f_equal. Z.div_mod_to_equations; lia.
  - inversion_clear H as [|? ? Ha H']. inversion_clear H' as [|? ? Hb _].
    unfold byte in *. cbn. f_equal; [|f_equal]; Z.div_mod_to_equations; lia.
  - inversion_clear H as [|? ? Ha H1]. inversion_clear H1 as [|? ? Hb H2].
    inversion_clear H2 as [|? ? Hc Ht]. unfold byte in *.
    cbn [b64_sextets app b64_decode_sextets]. rewrite IH by exact Ht.
    cbn [app]. f_equal; [|f_equal; [|f_equal]]; Z.div_mod_to_equations; lia.
Qed.

(** *** Percent-escapes of octets and their UTF-8 decoding *)

Definition pct_ok (b : Z) : bool :=
  match pct b with
  | [c; h; l] =>
      (c =? 37) && match hex_val h, hex_val l with
                   | Some x, Some y => x * 16 + y =? b
                   | _, _ => false
                   end
  | _ => false
  end.

Lemma pct_escape b rest : byte b -> read_escape (pct b ++ rest) = Some (b, rest).
Proof.
  intros Hb. assert (H : pct_ok b = true).
  { apply (range_check 256); [vm_compute; reflexivity | unfold byte in Hb; lia]. }
  unfold pct_ok in H.
  destruct (pct b) as [|c [|h [|l [|? ?]]]]; try discriminate.
  apply andb_true_iff in H as [Hc H]. apply Z.eqb_eq in Hc. subst c.
  cbn [app read_escape]. rewrite Z.eqb_refl.
  destruct (hex_val h), (hex_val l); try discriminate.
  apply Z.eqb_eq in H. now subst b.
Qed.

Lemma pct_head b : exists t, pct b = 37 :: t.
Proof. eexists. reflexivity. Qed.

Definition cont (c : Z) : Prop := 128 <= c < 192.

Lemma cont_land c : cont c -> (Z.land c 192 =? 128) = true.
Proof.
  intros Hc. unfold cont in Hc.
  assert (H : (fun x => Z.land (128 + x) 192 =? 128) (c - 128) = true).
  { apply (range_check 64 (fun x => Z.land (128 + x) 192 =? 128));
      [vm_compute; reflexivity | lia]. }
  cbv beta in H. now replace (128 + (c - 128)) with c in H by lia.
Qed.

Lemma read_conts_ok cs rest :
  Forall cont cs -> read_conts (length cs) (flat_map pct cs ++ rest) = Some (cs, rest).
Proof.
  induction 1 as [|c cs Hc _ IH]; [reflexivity|].
  cbn [length read_conts flat_map]. rewrite <- app_assoc.
  rewrite pct_escape by (unfold cont, byte in *; lia).
  rewrite cont_land by exact Hc. rewrite IH. reflexivity.
Qed.

Lemma decode_fuel_ascii f b rest :
  byte b -> lead_ones b = O ->
  decode_fuel (S f) (pct b ++ rest) =
    match decode_fuel f rest with Some r => Some (b :: r) | None => None end.
Proof.
  intros Hb Hl. pose proof (pct_escape b rest Hb) as R.
  destruct (pct_head b) as [t Et]. rewrite Et in R |- *.
  cbn [app decode_fuel] in R |- *. rewrite Z.eqb_refl, R, Hl. reflexivity.
Qed.

Lemma decode_fuel_lead f b n cs rest rest' :
  byte b -> lead_ones b = S n -> (1 <= n <= 3)%nat ->
  read_conts n rest = Some (cs, rest') ->
  utf8_valid (S n) (utf8_value (S n) b cs) = true ->
  decode_fuel (S f) (pct b ++ rest) =
    match decode_fuel f rest' with
    | Some r => Some (utf16_encode_cp (utf8_value (S n) b cs) ++ r)
    | None => None
    end.
Proof.
  intros Hb Hl Hn Hc Hv. pose proof (pct_escape b rest Hb) as R.
  destruct (pct_head b) as [t Et]. rewrite Et in R |- *.
  cbn [app decode_fuel] in R |- *. rewrite Z.eqb_refl, R, Hl.
  replace ((S n =? 1)%nat || (4 <? S n)%nat) with false
    by (symmetry; apply orb_false_iff; split;
        [apply Nat.eqb_neq | apply Nat.ltb_ge]; lia).
  replace (S n - 1)%nat with n by lia.
  rewrite Hc. cbv beta iota zeta. rewrite Hv. reflexivity.
Qed.

Lemma land_7 x : Z.land x 7 = x mod 8.
Proof. exact (Z.land_ones x 3 ltac:(lia)). Qed.
Lemma land_15 x : Z.land x 15 = x mod 16.
Proof. exact (Z.land_ones x 4 ltac:(lia)). Qed.
Lemma land_31 x : Z.land x 31 = x mod 32.
Proof. exact (Z.land_ones x 5 ltac:(lia)). Qed.
Lemma land_63 x : Z.land x 63 = x mod 64.
Proof. exact (Z.land_ones x 6 ltac:(lia)). Qed.

Ltac z_cases :=
  repeat match goal with
         | |- context [?a <? ?b] => destruct (Z.ltb_spec a b)
         | |- context [?a <=? ?b] => destruct (Z.leb_spec a b)
         end;
  cbn [andb negb]; first [reflexivity | lia].

Lemma flat_map_pct_cons b bs rest :
  flat_map pct (b :: bs) ++ rest = pct b ++ (flat_map pct bs ++ rest).
Proof. cbn [flat_map]. now rewrite <- app_assoc. Qed.

Lemma decode_cp f cp rest :
  scalar_value cp ->
  decode_fuel (S f) (flat_map pct (utf8_encode_cp cp) ++ rest) =
    match decode_fuel f rest with
    | Some r => Some (utf16_encode_cp cp ++ r)
    | None => None
    end.
Proof.
  intros [Hr Hs]. unfold utf8_encode_cp.
  destruct (Z.ltb_spec cp 128) as [H1|H1].
  { rewrite flat_map_pct_cons. cbn [flat_map app].
    rewrite decode_fuel_ascii by (unfold byte, lead_ones; z_cases).
    unfold utf16_encode_cp. now rewrite (proj2 (Z.ltb_lt cp 65536)) by lia. }
  destruct (Z.ltb_spec cp 2048) as [H2|H2].
  { assert (Hv : utf8_value 2 (192 + cp / 64) [128 + cp mod 64] = cp).
    { unfold utf8_value. cbn [fold_left].
      change (Z.shiftr 127 (Z.of_nat 2)) with 31. rewrite land_31, land_63.
      Z.div_mod_to_equations; lia. }
    rewrite flat_map_pct_cons.
    rewrite (decode_fuel_lead f _ 1 [128 + cp mod 64] _ rest).
    - now rewrite Hv.
    - unfold byte. Z.div_mod_to_equations; lia.
    - unfold lead_ones. assert (192 <= 192 + cp / 64 < 224)
        by (Z.div_mod_to_equations; lia). z_cases.
    - lia.
    - apply (read_conts_ok [_]). repeat constructor; unfold cont;
        Z.div_mod_to_equations; lia.
    - rewrite Hv. cbn [utf8_valid]. z_cases. }
  destruct (Z.ltb_spec cp 65536) as [H3|H3].
  { assert (Hv : utf8_value 3 (224 + cp / 4096)
                   [128 + (cp / 64) mod 64; 128 + cp mod 64] = cp).
    { unfold utf8_value. cbn [fold_left].
      change (Z.shiftr 127 (Z.of_nat 3)) with 15. rewrite land_15, !land_63.
      Z.div_mod_to_equations; lia. }
    rewrite flat_map_pct_cons.
    rewrite (decode_fuel_lead f _ 2 [128 + (cp / 64) mod 64; 128 + cp mod 64] _ rest).
    - now rewrite Hv.
    - unfold byte. Z.div_mod_to_equations; lia.
    - unfold lead_ones. assert (224 <= 224 + cp / 4096 < 240)
        by (Z.div_mod_to_equations; lia). z_cases.
    - lia.
    - apply (read_conts_ok [_; _]). repeat constructor; unfold cont;
        Z.div_mod_to_equations; lia.
    - rewrite Hv. cbn [utf8_valid]. z_cases. }
  assert (Hv : utf8_value 4 (240 + cp / 262144)
                 [128 + (cp / 4096) mod 64; 128 + (cp / 64) mod 64;
                  128 + cp mod 64] = cp).
  { unfold utf8_value. cbn [fold_left].
    change (Z.shiftr 127 (Z.of_nat 4)) with 7. rewrite land_7, !land_63.
    Z.div_mod_to_equations; lia. }
  rewrite flat_map_pct_cons.
  rewrite (decode_fuel_lead f _ 3 [128 + (cp / 4096) mod 64; 128 + (cp / 64) mod 64;
                                   128 + cp mod 64] _ rest).
  - now rewrite Hv.
  - unfold byte. Z.div_mod_to_equations; lia.
  - unfold lead_ones. assert (240 <= 240 + cp / 262144 < 248)
      by (Z.div_mod_to_equations; lia). z_cases.
  - lia.
  - apply (read_conts_ok [_; _; _]). repeat constructor; unfold cont;
      Z.div_mod_to_equations; lia.
  - rewrite Hv. cbn [utf8_valid]. z_cases.
Qed.

Lemma utf8_encode_cp_cons cp : exists b bs, utf8_encode_cp cp = b :: bs.
Proof.
  unfold utf8_encode_cp.
  destruct (cp <? 128); [eauto|]. destruct (cp <? 2048); [eauto|].
  destruct (cp <? 65536); eauto.
Qed.

Lemma utf8_encode_cp_bytes cp : scalar_value cp -> Forall byte (utf8_encode_cp cp).
Proof.
  intros [Hr _]. unfold utf8_encode_cp.
  destruct (Z.ltb_spec cp 128); [|destruct (Z.ltb_spec cp 2048);
    [|destruct (Z.ltb_spec cp 65536)]];
    repeat constructor; unfold byte; Z.div_mod_to_equations; lia.
Qed.

Lemma utf8_encode_bytes cps : Forall scalar_value cps -> Forall byte (utf8_encode cps).
Proof.
  induction 1 as [|cp cps Hcp _ IH]; [constructor|].
  change (utf8_encode (cp :: cps)) with (utf8_encode_cp cp ++ utf8_encode cps).
  apply List.Forall_app. split; [now apply utf8_encode_cp_bytes | exact IH].
Qed.

Lemma decode_utf8 cps :
  Forall scalar_value cps -> forall f,
  (length (flat_map pct (utf8_encode cps)) <= f)%nat ->
  decode_fuel f (flat_map pct (utf8_encode cps)) = Some (utf16_encode cps).
Proof.
  induction 1 as [|cp cps Hcp _ IH]; intros f Hf.
  - destruct f; reflexivity.
  - change (utf8_encode (cp :: cps)) with (utf8_encode_cp cp ++ utf8_encode cps) in *.
    change (utf16_encode (cp :: cps)) with (utf16_encode_cp cp ++ utf16_encode cps).
    rewrite flat_map_app in *. rewrite length_app in Hf.
    destruct (utf8_encode_cp_cons cp) as (b & bs & Eb).
    destruct (pct_head b) as [t Et].
    assert (Hlen : (1 <= length (flat_map pct (utf8_encode_cp cp)))%nat).
    { rewrite Eb. cbn [flat_map]. rewrite Et. cbn [app length]. lia. }
    destruct f as [|f]; [lia|].
    rewrite decode_cp by exact Hcp. rewrite IH by lia. reflexivity.
Qed.

Lemma bufferToBase64UrlEncoded_bytes l :
  Forall byte l -> bufferToBase64UrlEncoded l = Some (urlEncodeB64 (b64_encode l)).
Proof.
  intros H. unfold bufferToBase64UrlEncoded.
  replace (map (fun z => z mod 256) l) with l.
  2:{ induction H as [|b l Hb _ IH]; [reflexivity|].
      cbn [map]. rewrite <- IH. f_equal. unfold byte in Hb.
      symmetry. apply Z.mod_small. exact Hb. }
  unfold btoa. replace (forallb _ l) with true; [reflexivity|].
  symmetry. apply forallb_forall. intros b Hb.
  rewrite List.Forall_forall in H. specialize (H b Hb). unfold byte in H.
  apply andb_true_iff. split; [apply Z.leb_le | apply Z.leb_le]; lia.
Qed.

Lemma base64_layer_roundtrip l :
  Forall byte l ->
  atob (urlUnsafe (urlEncodeB64 (b64_encode l))) = Some l.
Proof.
  intros H. rewrite url_encode_b64 by exact H.
  rewrite atob_sextets.
  - now rewrite decode_sextets_roundtrip.
  - now apply sextets_range.
  - apply b64_sextets_length.
Qed.

(* ------------------------------------------------------------------ *)
(** *** [dedupe] keeps the first occurrence of each element *)

Fixpoint keep_first (seen l : list jsstr) : list jsstr :=
  match l with
  | [] => []
  | x :: t =>
      (if existsb (jsstr_eqb x) seen then [] else [x]) ++ keep_first (seen ++ [x]) t
  end.

Lemma existsb_jsstr_eqb x l : existsb (jsstr_eqb x) l = true <-> In x l.
Proof.
  rewrite existsb_exists. split.
  - intros (y & Hy & E). apply jsstr_eqb_spec in E. now subst.
  - intros H. exists x. split; [exact H | apply jsstr_eqb_refl].
Qed.

Lemma index_of_app_in x p s :
  In x p -> 0 <= index_of x (p ++ s) < Z.of_nat (length p).
Proof.
  induction p as [|y t IH]; simpl; [tauto|]. intros [<-|H].
  - rewrite jsstr_eqb_refl. lia.
  - destruct (jsstr_eqb x y); [lia|]. specialize (IH H).
    destruct (index_of x (t ++ s) =? -1) eqn:E; [apply Z.eqb_eq in E; lia | lia].
Qed.

Lemma index_of_app_notin x p t :
  ~ In x p -> index_of x (p ++ x :: t) = Z.of_nat (length p).
Proof.
  induction p as [|y p IH]; simpl; intros H.
  - now rewrite jsstr_eqb_refl.
  - rewrite jsstr_eqb_neq by (intros E; subst; apply H; now left).
    rewrite IH by tauto.
    destruct (Z.of_nat (length p) =? -1) eqn:E; [apply Z.eqb_eq in E|]; lia.
Qed.

Lemma dedupe_gen p s :
  filter_idx (fun x i => index_of x (p ++ s) =? i) (Z.of_nat (length p)) s
  = keep_first p s.
Proof.
  revert p. induction s as [|x t IH]; intros p; [reflexivity|].
  cbn [filter_idx keep_first].
  assert (T : (index_of x (p ++ x :: t) =? Z.of_nat (length p))
              = negb (existsb (jsstr_eqb x) p)).
  { destruct (existsb (jsstr_eqb x) p) eqn:E.
    - apply existsb_jsstr_eqb in E.
      pose proof (index_of_app_in x p (x :: t) E). apply Z.eqb_neq. lia.
    - rewrite index_of_app_notin; [apply Z.eqb_refl|].
      intros Hin. apply existsb_jsstr_eqb in Hin. congruence. }
  rewrite T.
  replace (p ++ x :: t) with ((p ++ [x]) ++ t) by now rewrite <- app_assoc.
  replace (Z.of_nat (length p) + 1) with (Z.of_nat (length (p ++ [x])))
    by (rewrite length_app; simpl; lia).
  rewrite IH. now destruct (existsb (jsstr_eqb x) p).
Qed.

Lemma dedupe_keep_first arr : dedupe arr = keep_first [] arr.
Proof. exact (dedupe_gen [] arr). Qed.

Lemma keep_first_In seen l y :
  In y (keep_first seen l) <-> In y l /\ ~ In y seen.
Proof.
  revert seen. induction l as [|x t IH]; intros seen; simpl; [tauto|].
  rewrite in_app_iff, IH, in_app_iff. simpl.
  destruct (existsb (jsstr_eqb x) seen) eqn:E.
  - apply existsb_jsstr_eqb in E. simpl. split.
    + intros [[] | [Ht Hn]]. split; [now right | tauto].
    + intros [[<- | Ht] Hn]; [tauto|]. right. split; [exact Ht|].
      intros [H | [<- | []]]; tauto.
  - assert (Hx : ~ In x seen)
      by (intros H; apply existsb_jsstr_eqb in H; congruence).
    simpl. split.
    + intros [[<- | []] | [Ht Hn]]; [tauto|]. split; [now right | tauto].
    + intros [[<- | Ht] Hn]; [now left; left|].
      destruct (decide (y = x)) as [->|Hyx]; [now left; left|].
      right. split; [exact Ht|]. intros [Hs | [He | []]]; [tauto | congruence].
Qed.

Lemma keep_first_NoDup seen l : List.NoDup (keep_first seen l).
Proof.
  revert seen. induction l as [|x t IH]; intros seen; simpl; [constructor|].
  destruct (existsb (jsstr_eqb x) seen); simpl; [apply IH|].
  constructor; [|apply IH].
  rewrite keep_first_In. intros [_ H]. apply H. apply in_app_iff. right. now left.
Qed.

Lemma keep_first_app seen l1 l2 :
  keep_first seen (l1 ++ l2) = keep_first seen l1 ++ keep_first (seen ++ l1) l2.
Proof.
  revert seen. induction l1 as [|x t IH]; intros seen; simpl.
  - now rewrite app_nil_r.
  - rewrite IH, <- app_assoc, <- app_assoc. reflexivity.
Qed.

Lemma keep_first_filter (q : jsstr -> bool) seen l :
  keep_first (List.filter q seen) (List.filter q l) = List.filter q (keep_first seen l).
Proof.
  revert seen. induction l as [|x t IH]; intros seen; [reflexivity|].
  cbn [keep_first List.filter]. rewrite List.filter_app.
  destruct (q x) eqn:Q.
  - cbn [keep_first].
    replace (existsb (jsstr_eqb x) (List.filter q seen)) with (existsb (jsstr_eqb x) seen).
    2:{ apply eq_true_iff_eq. rewrite !existsb_jsstr_eqb, filter_In. tauto. }
    replace (List.filter q seen ++ [x]) with (List.filter q (seen ++ [x]))
      by (rewrite List.filter_app; simpl; now rewrite Q).
    rewrite IH. destruct (existsb (jsstr_eqb x) seen); simpl; [reflexivity|].
    now rewrite Q.
  - replace (List.filter q (if existsb (jsstr_eqb x) seen then [] else [x])) with (@nil jsstr)
      by (destruct (existsb (jsstr_eqb x) seen); simpl; [|rewrite Q]; reflexivity).
    rewrite <- IH, List.filter_app. simpl. now rewrite Q, app_nil_r.
Qed.
(* ------------------------------------------------------------------ *)
(** *** [split], [join] and [trim] on token lists *)

Definition nonempty (t : jsstr) : bool := match t with [] => false | _ => true end.

Lemma split_on_ne c s : split_on c s <> [].
Proof.
  destruct s as [|x t]; simpl; [discriminate|].
  destruct (x =? c); [discriminate|]. destruct (split_on c t); discriminate.
Qed.

Lemma split_on_app c a b : split_on c (a ++ c :: b) = split_on c a ++ split_on c b.
Proof.
  induction a as [|x t IH]; simpl.
  - now rewrite Z.eqb_refl.
  - destruct (x =? c); [now rewrite IH|]. rewrite IH.
    destruct (split_on c t) as [|p ps] eqn:E; [now destruct (split_on_ne c t)|].
    reflexivity.
Qed.

Lemma join_cons sep x t : t <> [] -> join sep (x :: t) = x ++ sep ++ join sep t.
Proof. destruct t; [congruence | reflexivity]. Qed.

Lemma split_on_join c l :
  l <> [] -> Forall (fun f => ~ In c f) l -> split_on c (join [c] l) = l.
Proof.
  induction l as [|x t IH]; intros Hne H; [congruence|].
  inversion_clear H as [|? ? Hx Ht].
  assert (Hfield : forall f, ~ In c f -> split_on c f = [f]).
  { induction f as [|y f IHf]; intros Hf; [reflexivity|]. simpl.
    destruct (Z.eqb_spec y c) as [->|_]; [exfalso; apply Hf; now left|].
    rewrite IHf by (intros Hin; apply Hf; now right). reflexivity. }
  destruct t as [|y t'].
  - simpl. now apply Hfield.
  - rewrite join_cons by discriminate. cbn [app].
    rewrite split_on_app, Hfield, IH by (auto; discriminate). reflexivity.
Qed.

Lemma split_on_fields c s : Forall (fun f => ~ In c f) (split_on c s).
Proof.
  induction s as [|x t IH]; simpl; [constructor; [tauto | constructor]|].
  destruct (Z.eqb_spec x c); [constructor; [tauto | exact IH]|].
  destruct (split_on c t) as [|p ps]; [constructor; [|constructor]; simpl; lia|].
  inversion_clear IH as [|? ? Hp Hps]. constructor; [|exact Hps].
  intros [E|Hin]; [congruence | tauto].
Qed.

Lemma join_split c s : join [c] (split_on c s) = s.
Proof.
  induction s as [|x t IH]; [reflexivity|]. simpl.
  destruct (Z.eqb_spec x c) as [->|_].
  - rewrite join_cons by apply split_on_ne. now rewrite IH.
  - destruct (split_on c t) as [|p ps]; [simpl in IH; now subst|].
    destruct ps as [|q qs]; simpl in *; now rewrite IH.
Qed.

Lemma join_snoc sep l y : l <> [] -> join sep (l ++ [y]) = join sep l ++ sep ++ y.
Proof.
  induction l as [|x t IH]; intros Hne; [congruence|].
  destruct t as [|z t]; [reflexivity|].
  change ((x :: z :: t) ++ [y]) with (x :: ((z :: t) ++ [y])).
  rewrite join_cons by (destruct t; discriminate).
  rewrite join_cons by discriminate.
  rewrite IH by discriminate. now rewrite !app_assoc.
Qed.

Lemma join_rev c l : rev (join [c] l) = join [c] (rev (map (@rev Z) l)).
Proof.
  induction l as [|x t IH]; [reflexivity|].
  destruct t as [|y t]; [simpl; reflexivity|].
  rewrite join_cons by discriminate. cbn [map rev].
  rewrite join_snoc.
  - rewrite !rev_app_distr, IH. cbn [map rev]. simpl. now rewrite <- app_assoc.
  - intros E. apply (f_equal (@length jsstr)) in E.
    rewrite length_app in E. simpl in E. lia.
Qed.

Lemma split_on_rev c s : split_on c (rev s) = rev (map (@rev Z) (split_on c s)).
Proof.
  rewrite <- (join_split c s) at 1. rewrite join_rev. apply split_on_join.
  - intros E. apply (f_equal (@length jsstr)) in E. rewrite length_rev, length_map in E.
    destruct (split_on c s) eqn:Es; [now apply (split_on_ne c s)|]. simpl in E. lia.
  - pose proof (split_on_fields c s) as H.
    apply List.Forall_forall. intros f Hf. apply in_rev, in_map_iff in Hf.
    destruct Hf as (g & <- & Hg). rewrite List.Forall_forall in H.
    intros Hin. apply (H g Hg). now apply in_rev.
Qed.

(** The non-empty fields of [s.split(' ')]. *)
Definition words (s : jsstr) : list jsstr := List.filter nonempty (split_on 32 s).

Lemma words_rev s : words (rev s) = rev (map (@rev Z) (words s)).
Proof.
  unfold words. rewrite split_on_rev, filter_rev, filter_map_swap. f_equal. f_equal.
  apply filter_ext. intros [|x t]; simpl; [reflexivity|].
  destruct (rev t); reflexivity.
Qed.

Lemma words_skip_ws s :
  Forall (fun c => is_ws c = true -> c = 32) s -> words (skip_ws s) = words s.
Proof.
  induction s as [|x t IH]; intros H; [reflexivity|].
  inversion_clear H as [|? ? Hx Ht]. simpl.
  destruct (is_ws x) eqn:W; [|reflexivity].
  rewrite IH by exact Ht. rewrite (Hx eq_refl). unfold words. simpl. reflexivity.
Qed.

Lemma skip_ws_suffix s : exists p, s = p ++ skip_ws s.
Proof.
  induction s as [|x t [p IH]]; [now exists []|]. simpl.
  destruct (is_ws x); [exists (x :: p); simpl; now rewrite <- IH | now exists []].
Qed.

Lemma words_trim s :
  Forall (fun c => is_ws c = true -> c = 32) s -> words (trim s) = words s.
Proof.
  intros H. unfold trim.
  destruct (skip_ws_suffix s) as [p Hp].
  assert (H1 : Forall (fun c => is_ws c = true -> c = 32) (skip_ws s)).
  { rewrite Hp in H. now apply List.Forall_app in H as [_ H]. }
  rewrite words_rev, words_skip_ws.
  - rewrite words_rev, map_rev, map_map, rev_involutive.
    rewrite (map_ext_in _ (fun x => x)) by (intros; apply rev_involutive).
    rewrite map_id. now apply words_skip_ws.
  - apply Forall_rev. exact H1.
Qed.
(** The tokens of a scope string: its pieces between white space and commas. *)
Definition scope_tokens (s : jsstr) : list jsstr :=
  List.filter nonempty (split_on 44 (ws_to_comma s)).

Lemma ws_to_comma_join l : ws_to_comma (join [44] l) = join [44] (map ws_to_comma l).
Proof.
  induction l as [|x t IH]; [reflexivity|].
  destruct t as [|y t]; [reflexivity|].
  rewrite (join_cons _ x) by discriminate.
  change (map ws_to_comma (x :: y :: t)) with (ws_to_comma x :: map ws_to_comma (y :: t)).
  rewrite (join_cons _ (ws_to_comma x)) by (simpl; discriminate).
  rewrite <- IH. unfold ws_to_comma. rewrite !map_app. reflexivity.
Qed.

Lemma split_on_join_flat c l :
  l <> [] -> split_on c (join [c] l) = flat_map (split_on c) l.
Proof.
  induction l as [|x t IH]; intros Hne; [congruence|].
  destruct t as [|y t]; [simpl; now rewrite app_nil_r|].
  rewrite join_cons by discriminate. cbn [app].
  rewrite split_on_app, IH by discriminate. reflexivity.
Qed.

Lemma filter_flat_map_comm (q : jsstr -> bool) (g : jsstr -> list jsstr) l :
  List.filter q (flat_map g l) = flat_map (fun x => List.filter q (g x)) l.
Proof.
  induction l as [|x t IH]; [reflexivity|]. simpl. now rewrite List.filter_app, IH.
Qed.

Lemma scope_tokens_all scopes :
  List.filter nonempty
    (split_on 44 (ws_to_comma (join (js ",") (List.filter (fun s => truthy (JString s)) scopes))))
  = flat_map scope_tokens scopes.
Proof.
  assert (E : flat_map scope_tokens scopes
              = flat_map scope_tokens (List.filter (fun s => truthy (JString s)) scopes)).
  { induction scopes as [|s t IH]; [reflexivity|]. simpl.
    destruct s as [|x u]; simpl; [exact IH|]. now rewrite IH. }
  rewrite E. change (js ",") with [44].
  destruct (List.filter (fun s => truthy (JString s)) scopes) as [|x t] eqn:Ef;
    [reflexivity|].
  rewrite ws_to_comma_join, split_on_join_flat by (simpl; discriminate).
  rewrite filter_flat_map_comm, flat_map_concat_map, map_map.
  now rewrite <- flat_map_concat_map.
Qed.

Lemma split_on_chars (P : Z -> Prop) c s f :
  Forall P s -> In f (split_on c s) -> Forall P f.
Proof.
  revert f. induction s as [|x t IH]; intros f Hs Hf; simpl in Hf.
  - destruct Hf as [<-|[]]. constructor.
  - inversion_clear Hs as [|? ? Hx Ht].
    destruct (x =? c).
    + destruct Hf as [<-|Hf]; [constructor | now apply IH].
    + destruct (split_on c t) as [|p ps] eqn:E.
      * destruct Hf as [<-|[]]. now constructor.
      * destruct Hf as [<-|Hf].
        -- constructor; [exact Hx|]. apply IH; [exact Ht|]. try rewrite E; now left.
        -- apply IH; [exact Ht|]. try rewrite E; now right.
Qed.

Lemma Forall_join (P : Z -> Prop) sep l :
  Forall P sep -> Forall (Forall P) l -> Forall P (join sep l).
Proof.
  intros Hs. induction 1 as [|x t Hx Ht IH]; [constructor|].
  destruct t as [|y t]; [exact Hx|].
  rewrite join_cons by discriminate.
  apply List.Forall_app. split; [exact Hx|]. apply List.Forall_app. now split.
Qed.

Lemma ws_to_comma_no_ws s : Forall (fun c => is_ws c = false) (ws_to_comma s).
Proof.
  unfold ws_to_comma. apply List.Forall_forall. intros c Hc.
  apply in_map_iff in Hc as (x & <- & _).
  destruct (is_ws x) eqn:W; [reflexivity | exact W].
Qed.
Lemma filter_truthy_list l :
  filter (fun s => truthy (JString s)) l = List.filter (fun s => truthy (JString s)) l.
Proof.
  induction l as [|x t IH]; [reflexivity|].
  cbn [List.filter]. rewrite <- IH. destruct x as [|c u]; [|reflexivity].
  reflexivity.
Qed.

(** *** [b64_encode] as characters of the 6-bit groups and padding *)

Lemma b64_encode_shape l :
  exists k, (k <= 2)%nat
  /\ b64_encode l = map b64_char (b64_sextets l) ++ repeat 61 k
  /\ ((length (b64_sextets l) + k) mod 4 = 0)%nat.
Proof.
  induction l as [|a|a b|a b c t IH] using list_ind3.
  - exists 0%nat. split; [lia|]. split; reflexivity.
  - exists 2%nat. split; [lia|]. split; reflexivity.
  - exists 1%nat. split; [lia|]. split; reflexivity.
  - destruct IH as (k & Hk & E & Hl). exists k. split; [exact Hk|]. split.
    + cbn [b64_encode b64_sextets]. rewrite E, map_app, <- app_assoc. reflexivity.
    + cbn [b64_sextets]. rewrite length_app. cbn [length].
      replace (4 + length (b64_sextets t) + k)%nat
        with (length (b64_sextets t) + k + 1 * 4)%nat by lia.
      now rewrite Nat.Div0.mod_add.
Qed.

Lemma drop_padding_padded sx k :
  Forall sextet sx -> (k <= 2)%nat ->
  drop_padding (map b64_char sx ++ repeat 61 k) = map b64_char sx.
Proof.
  intros H Hk.
  assert (Hlast : forall c r, rev (map b64_char sx) = c :: r -> (c =? 61) = false).
  { intros c r E. assert (Hin : In c (map b64_char sx)).
    { apply in_rev. rewrite E. now left. }
    apply in_map_iff in Hin as (i & <- & Hi).
    rewrite List.Forall_forall in H.
    now destruct (sextet_facts i (H i Hi)) as (_ & _ & H61 & _). }
  destruct k as [|[|[|k]]]; [| | |lia].
  - rewrite app_nil_r. now apply drop_padding_sextets.
  - unfold drop_padding. rewrite rev_app_distr. cbn [repeat rev app].
    rewrite Z.eqb_refl.
    destruct (rev (map b64_char sx)) as [|c2 r2] eqn:E.
    + now rewrite <- E, rev_involutive.
    + rewrite (Hlast c2 r2 eq_refl), <- E, rev_involutive. reflexivity.
  - unfold drop_padding. rewrite rev_app_distr. cbn [repeat rev app].
    rewrite Z.eqb_refl. now rewrite rev_involutive.
Qed.

Lemma filter_ws_padded sx k :
  Forall sextet sx ->
  List.filter (fun c => negb (is_ascii_ws c)) (map b64_char sx ++ repeat 61 k)
  = map b64_char sx ++ repeat 61 k.
Proof.
  intros H. rewrite List.filter_app, filter_ws_sextets by exact H. f_equal.
  induction k as [|k IH]; [reflexivity|]. cbn [repeat List.filter].
  rewrite IH. reflexivity.
Qed.

Lemma atob_b64_encode l : Forall byte l -> atob (b64_encode l) = Some l.
Proof.
  intros H. pose proof (sextets_range _ H) as Hs.
  destruct (b64_encode_shape l) as (k & Hk & E & Hl). rewrite E.
  unfold atob. rewrite filter_ws_padded by exact Hs.
  rewrite length_app, length_map, repeat_length, Hl. cbn [Nat.eqb].
  rewrite drop_padding_padded by assumption.
  rewrite length_map. pose proof (b64_sextets_length l) as Hl1. apply Nat.eqb_neq in Hl1.
  rewrite Hl1, map_option_sextets by exact Hs.
  now rewrite decode_sextets_roundtrip by exact H.
Qed.

Lemma btoa_some s e : btoa s = Some e -> Forall byte s /\ e = b64_encode s.
Proof.
  unfold btoa. destruct (forallb _ s) eqn:F; [|discriminate].
  intros Hs. injection Hs as <-. split; [|reflexivity].
  apply List.Forall_forall. intros c Hc. rewrite forallb_forall in F.
  specialize (F c Hc). apply andb_true_iff in F as [F1 F2].
  apply Z.leb_le in F1, F2. unfold byte. lia.
Qed.

Lemma b64_sextets_count l :
  length (b64_sextets l) = ((4 * length l + 2) / 3)%nat.
Proof.
  induction l as [|a|a b|a b c t IH] using list_ind3; try reflexivity.
  cbn [b64_sextets length]. rewrite length_app, IH. cbn [length].
  replace (4 * S (S (S (length t))) + 2)%nat with (4 * length t + 2 + 4 * 3)%nat by lia.
  rewrite Nat.div_add by lia. lia.
Qed.
(** *** The url-safe alphabet *)

(** The characters of base64url text: [A-Z], [a-z], [0-9], [-] and [_]. *)
Definition base64url_char (c : Z) : bool :=
  ((65 <=? c) && (c <=? 90)) || ((97 <=? c) && (c <=? 122))
  || ((48 <=? c) && (c <=? 57)) || (c =? 45) || (c =? 95).

Definition sextet_url_ok (i : Z) : bool :=
  match urlEncodeB64 [b64_char i] with [c] => base64url_char c | _ => false end.

Lemma urlEncodeB64_app a b : urlEncodeB64 (a ++ b) = urlEncodeB64 a ++ urlEncodeB64 b.
Proof. unfold urlEncodeB64. apply flat_map_app. Qed.

Lemma urlEncodeB64_sextets sx :
  Forall sextet sx ->
  Forall (fun c => base64url_char c = true) (urlEncodeB64 (map b64_char sx))
  /\ length (urlEncodeB64 (map b64_char sx)) = length sx.
Proof.
  induction 1 as [|i sx Hi _ [IH1 IH2]]; [split; [constructor | reflexivity]|].
  assert (H : sextet_url_ok i = true).
  { apply (range_check 64 sextet_url_ok); [vm_compute; reflexivity | exact Hi]. }
  unfold sextet_url_ok in H.
  change (map b64_char (i :: sx)) with ([b64_char i] ++ map b64_char sx).
  rewrite urlEncodeB64_app.
  destruct (urlEncodeB64 [b64_char i]) as [|c [|? ?]]; try discriminate.
  split; [now constructor | cbn [app length]; now rewrite IH2].
Qed.

Lemma urlEncodeB64_pad k : urlEncodeB64 (repeat 61 k) = [].
Proof. induction k as [|k IH]; [reflexivity|]. exact IH. Qed.

Lemma byte_mod_256 input : Forall byte (map (fun z => z mod 256) input).
Proof.
  apply List.Forall_forall. intros b Hb. apply in_map_iff in Hb as (z & <- & _).
  unfold byte. apply Z.mod_pos_bound. lia.
Qed.

Lemma btoa_bytes l : Forall byte l -> btoa l = Some (b64_encode l).
Proof.
  intros H. unfold btoa. replace (forallb _ l) with true; [reflexivity|].
  symmetry. apply forallb_forall. intros c Hc. rewrite List.Forall_forall in H.
  specialize (H c Hc). unfold byte in H.
  apply andb_true_iff. split; apply Z.leb_le; lia.
Qed.
(** *** The [forEach] loop of [parseQueryResult] *)

Lemma find_app_opt {A} (f : A -> bool) l1 l2 :
  find f (l1 ++ l2) = match find f l1 with Some x => Some x | None => find f l2 end.
Proof. induction l1 as [|x t IH]; [reflexivity|]. cbn. destruct (f x); auto. Qed.

Lemma fill_query_last acc qps r k :
  fill_query acc qps = Some r -> k <> js "__proto__" ->
  obj_get r k =
    match find (fun qp => jsstr_eqb (key_of qp) k) (rev qps) with
    | None => obj_get acc k
    | Some qp => option_map JString (decodeURIComponent (to_string (val_of qp)))
    end.
Proof.
  intros H Hk. revert acc H. induction qps as [|qp rest IH]; intros acc H.
  - cbn in H. injection H as <-. reflexivity.
  - cbn [fill_query] in H.
    destruct (decodeURIComponent (to_string (val_of qp))) as [d|] eqn:Ed;
      [|discriminate].
    rewrite (IH _ H). cbn [rev]. rewrite find_app_opt.
    destruct (find _ (rev rest)) as [qp'|]; [reflexivity|].
    cbn [find]. destruct (jsstr_eqb (key_of qp) k) eqn:Ek.
    + apply jsstr_eqb_spec in Ek. subst k. rewrite Ed.
      rewrite (jsstr_eqb_neq _ _ Hk). apply obj_get_set_eq.
    + destruct (jsstr_eqb (key_of qp) (js "__proto__")); [reflexivity|].
      rewrite obj_get_set.
      destruct (jsstr_eqb k (key_of qp)) eqn:Ek'; [|reflexivity].
      apply jsstr_eqb_spec in Ek'. subst k. now rewrite jsstr_eqb_refl in Ek.
Qed.
(** *** [encodeURIComponent] and [decodeURIComponent] *)

(** The UTF-8 decoding steps above hold for any escape of an octet that
    [read_escape] reads back. *)
Section EscapeDecode.

Variable esc : Z -> jsstr.
Hypothesis esc_escape :
  forall b rest, byte b -> read_escape (esc b ++ rest) = Some (b, rest).
Hypothesis esc_head : forall b, exists t, esc b = 37 :: t.

Lemma read_conts_esc cs rest :
  Forall cont cs -> read_conts (length cs) (flat_map esc cs ++ rest) = Some (cs, rest).
Proof.
  induction 1 as [|c cs Hc _ IH]; [reflexivity|].
  cbn [length read_conts flat_map]. rewrite <- app_assoc.
  rewrite esc_escape by (unfold cont, byte in *; lia).
  rewrite cont_land by exact Hc. rewrite IH. reflexivity.
Qed.

Lemma decode_fuel_ascii_esc f b rest :
  byte b -> lead_ones b = O ->
  decode_fuel (S f) (esc b ++ rest) =
    match decode_fuel f rest with Some r => Some (b :: r) | None => None end.
Proof.
  intros Hb Hl. pose proof (esc_escape b rest Hb) as R.
  destruct (esc_head b) as [t Et]. rewrite Et in R |- *.
  cbn [app decode_fuel] in R |- *. rewrite Z.eqb_refl, R, Hl. reflexivity.
Qed.

Lemma decode_fuel_lead_esc f b n cs rest rest' :
  byte b -> lead_ones b = S n -> (1 <= n <= 3)%nat ->
  read_conts n rest = Some (cs, rest') ->
  utf8_valid (S n) (utf8_value (S n) b cs) = true ->
  decode_fuel (S f) (esc b ++ rest) =
    match decode_fuel f rest' with
    | Some r => Some (utf16_encode_cp (utf8_value (S n) b cs) ++ r)
    | None => None
    end.
Proof.
  intros Hb Hl Hn Hc Hv. pose proof (esc_escape b rest Hb) as R.
  destruct (esc_head b) as [t Et]. rewrite Et in R |- *.
  cbn [app decode_fuel] in R |- *. rewrite Z.eqb_refl, R, Hl.
  replace ((S n =? 1)%nat || (4 <? S n)%nat) with false
    by (symmetry; apply orb_false_iff; split;
        [apply Nat.eqb_neq | apply Nat.ltb_ge]; lia).
  replace (S n - 1)%nat with n by lia.
  rewrite Hc. cbv beta iota zeta. rewrite Hv. reflexivity.
Qed.

Lemma flat_map_esc_cons b bs rest :
  flat_map esc (b :: bs) ++ rest = esc b ++ (flat_map esc bs ++ rest).
Proof. cbn [flat_map]. now rewrite <- app_assoc. Qed.

Lemma decode_cp_esc f cp rest :
  scalar_value cp ->
  decode_fuel (S f) (flat_map esc (utf8_encode_cp cp) ++ rest) =
    match decode_fuel f rest with
    | Some r => Some (utf16_encode_cp cp ++ r)
    | None => None
    end.
Proof.
  intros [Hr Hs]. unfold utf8_encode_cp.
  destruct (Z.ltb_spec cp 128) as [H1|H1].
  { rewrite flat_map_esc_cons. cbn [flat_map app].
    rewrite decode_fuel_ascii_esc by (unfold byte, lead_ones; z_cases).
    unfold utf16_encode_cp. now rewrite (proj2 (Z.ltb_lt cp 65536)) by lia. }
  destruct (Z.ltb_spec cp 2048) as [H2|H2].
  { assert (Hv : utf8_value 2 (192 + cp / 64) [128 + cp mod 64] = cp).
    { unfold utf8_value. cbn [fold_left].
      change (Z.shiftr 127 (Z.of_nat 2)) with 31. rewrite land_31, land_63.
      Z.div_mod_to_equations; lia. }
    rewrite flat_map_esc_cons.
    rewrite (decode_fuel_lead_esc f _ 1 [128 + cp mod 64] _ rest).
    - now rewrite Hv.
    - unfold byte. Z.div_mod_to_equations; lia.
    - unfold lead_ones. assert (192 <= 192 + cp / 64 < 224)
        by (Z.div_mod_to_equations; lia). z_cases.
    - lia.
    - apply (read_conts_esc [_]). repeat constructor; unfold cont;
        Z.div_mod_to_equations; lia.
    - rewrite Hv. cbn [utf8_valid]. z_cases. }
  destruct (Z.ltb_spec cp 65536) as [H3|H3].
  { assert (Hv : utf8_value 3 (224 + cp / 4096)
                   [128 + (cp / 64) mod 64; 128 + cp mod 64] = cp).
    { unfold utf8_value. cbn [fold_left].
      change (Z.shiftr 127 (Z.of_nat 3)) with 15. rewrite land_15, !land_63.
      Z.div_mod_to_equations; lia. }
    rewrite flat_map_esc_cons.
    rewrite (decode_fuel_lead_esc f _ 2 [128 + (cp / 64) mod 64; 128 + cp mod 64] _ rest).
    - now rewrite Hv.
    - unfold byte. Z.div_mod_to_equations; lia.
    - unfold lead_ones. assert (224 <= 224 + cp / 4096 < 240)
        by (Z.div_mod_to_equations; lia). z_cases.
    - lia.
    - apply (read_conts_esc [_; _]). repeat constructor; unfold cont;
        Z.div_mod_to_equations; lia.
    - rewrite Hv. cbn [utf8_valid]. z_cases. }
  assert (Hv : utf8_value 4 (240 + cp / 262144)
                 [128 + (cp / 4096) mod 64; 128 + (cp / 64) mod 64;
                  128 + cp mod 64] = cp).
  { unfold utf8_value. cbn [fold_left].
    change (Z.shiftr 127 (Z.of_nat 4)) with 7. rewrite land_7, !land_63.
    Z.div_mod_to_equations; lia. }
  rewrite flat_map_esc_cons.
  rewrite (decode_fuel_lead_esc f _ 3 [128 + (cp / 4096) mod 64; 128 + (cp / 64) mod 64;
                                       128 + cp mod 64] _ rest).
  - now rewrite Hv.
  - unfold byte. Z.div_mod_to_equations; lia.
  - unfold lead_ones. assert (240 <= 240 + cp / 262144 < 248)
      by (Z.div_mod_to_equations; lia). z_cases.
  - lia.
  - apply (read_conts_esc [_; _; _]). repeat constructor; unfold cont;
      Z.div_mod_to_equations; lia.
  - rewrite Hv. cbn [utf8_valid]. z_cases.
Qed.

End EscapeDecode.

Definition esc_octet_ok (b : Z) : bool :=
  match esc_octet b with
  | [c; h; l] =>
      (c =? 37) && match hex_val h, hex_val l with
                   | Some x, Some y => x * 16 + y =? b
                   | _, _ => false
                   end
  | _ => false
  end.

Lemma esc_octet_escape b rest :
  byte b -> read_escape (esc_octet b ++ rest) = Some (b, rest).
Proof.
  intros Hb. assert (H : esc_octet_ok b = true).
  { apply (range_check 256 esc_octet_ok);
      [vm_compute; reflexivity | unfold byte in Hb; lia]. }
  unfold esc_octet_ok in H. unfold esc_octet in H |- *.
  cbn [app read_escape]. rewrite Z.eqb_refl.
  apply andb_true_iff in H as [_ H].
  destruct (hex_val (hex_upper (b / 16))), (hex_val (hex_upper (b mod 16)));
    try discriminate.
  apply Z.eqb_eq in H. now subst b.
Qed.

Lemma esc_octet_head b : exists t, esc_octet b = 37 :: t.
Proof. eexists. reflexivity. Qed.

Lemma uri_unescaped_bound c : uri_unescaped c = true -> 0 <= c < 128.
Proof.
  unfold uri_unescaped. intros H.
  repeat rewrite orb_true_iff in H. repeat rewrite andb_true_iff in H.
  rewrite !Z.leb_le in H.
  destruct H as [[[H|H]|H]|H]; try lia.
  apply existsb_exists in H as (x & Hx & E). apply Z.eqb_eq in E. subst x.
  simpl in Hx. lia.
Qed.

Lemma uri_unescaped_not_pct c : uri_unescaped c = true -> (c =? 37) = false.
Proof.
  intros H. pose proof (uri_unescaped_bound c H) as Hb.
  assert (T : (fun x => negb (uri_unescaped x) || negb (x =? 37)) c = true).
  { apply (range_check 128 (fun x => negb (uri_unescaped x) || negb (x =? 37)));
      [vm_compute; reflexivity | exact Hb]. }
  cbv beta in T. rewrite H in T. now apply negb_true_iff in T.
Qed.

Lemma surrogate_pair_cp c d :
  55296 <= c <= 56319 -> 56320 <= d <= 57343 ->
  scalar_value ((c - 55296) * 1024 + (d - 56320) + 65536)
  /\ utf16_encode_cp ((c - 55296) * 1024 + (d - 56320) + 65536) = [c; d].
Proof.
  intros Hc Hd. split; [unfold scalar_value; lia|].
  unfold utf16_encode_cp. rewrite (proj2 (Z.ltb_ge _ 65536)) by lia.
  f_equal; [|f_equal]; Z.div_mod_to_equations; lia.
Qed.

Lemma flat_map_esc_length bs : (length bs <= length (flat_map esc_octet bs))%nat.
Proof.
  induction bs as [|b bs IH]; [reflexivity|]. cbn [flat_map]. rewrite length_app.
  cbn [length esc_octet]. lia.
Qed.

Lemma utf8_encode_cp_length cp : (1 <= length (utf8_encode_cp cp))%nat.
Proof. destruct (utf8_encode_cp_cons cp) as (b & bs & ->). cbn [length]. lia. Qed.

Lemma decode_encodeURIComponent_fuel :
  forall s e, Forall code_unit s -> encodeURIComponent s = Some e ->
  forall f, (length e <= f)%nat -> decode_fuel f e = Some s.
Proof.
  fix IH 1. intros [|c t] e Hs He f Hf.
  - cbn in He. injection He as <-. destruct f; reflexivity.
  - inversion Hs as [|? ? Hc Ht]. subst. cbn [encodeURIComponent] in He.
    destruct (uri_unescaped c) eqn:Eu.
    { destruct (encodeURIComponent t) as [r|] eqn:Er; [|discriminate].
      injection He as <-. cbn [length] in Hf. destruct f as [|f]; [lia|].
      cbn [decode_fuel]. rewrite (uri_unescaped_not_pct c Eu).
      rewrite (IH t r Ht Er f) by lia. reflexivity. }
    destruct ((55296 <=? c) && (c <=? 56319)) eqn:El.
    { destruct t as [|d t']; [discriminate|].
      destruct ((56320 <=? d) && (d <=? 57343)) eqn:Et; [|discriminate].
      destruct (encodeURIComponent t') as [r|] eqn:Er; [|discriminate].
      injection He as <-. inversion Ht as [|? ? Hd Ht']. subst.
      apply andb_true_iff in El as [El1 El2]. apply andb_true_iff in Et as [Et1 Et2].
      apply Z.leb_le in El1, El2, Et1, Et2.
      destruct (surrogate_pair_cp c d) as [Hsv Hu]; [lia | lia |].
      rewrite length_app in Hf.
      pose proof (flat_map_esc_length
                    (utf8_encode_cp ((c - 55296) * 1024 + (d - 56320) + 65536))).
      pose proof (utf8_encode_cp_length ((c - 55296) * 1024 + (d - 56320) + 65536)).
      destruct f as [|f]; [lia|].
      rewrite (decode_cp_esc esc_octet esc_octet_escape esc_octet_head) by exact Hsv.
      rewrite (IH t' r Ht' Er f) by lia. rewrite Hu. reflexivity. }
    destruct ((56320 <=? c) && (c <=? 57343)) eqn:Et; [discriminate|].
    destruct (encodeURIComponent t) as [r|] eqn:Er; [|discriminate].
    injection He as <-.
    assert (Hsv : scalar_value c).
    { unfold code_unit in Hc. unfold scalar_value. split; [lia|].
      intros Hr. destruct (Z.leb_spec 55296 c), (Z.leb_spec c 56319),
        (Z.leb_spec 56320 c), (Z.leb_spec c 57343); cbn in El, Et; try discriminate;
        lia. }
    rewrite length_app in Hf.
    pose proof (flat_map_esc_length (utf8_encode_cp c)).
    pose proof (utf8_encode_cp_length c).
    destruct f as [|f]; [lia|].
    rewrite (decode_cp_esc esc_octet esc_octet_escape esc_octet_head) by exact Hsv.
    rewrite (IH t r Ht Er f) by lia.
    unfold utf16_encode_cp. unfold code_unit in Hc.
    rewrite (proj2 (Z.ltb_lt c 65536)) by lia. reflexivity.
Qed.

Lemma decode_encodeURIComponent s e :
  Forall code_unit s -> encodeURIComponent s = Some e -> decodeURIComponent e = Some s.
Proof.
  intros Hs He. unfold decodeURIComponent.
  exact (decode_encodeURIComponent_fuel s e Hs He _ (le_n _)).
Qed.

Lemma encodeURIComponent_inj s1 s2 e :
  Forall code_unit s1 -> Forall code_unit s2 ->
  encodeURIComponent s1 = Some e -> encodeURIComponent s2 = Some e -> s1 = s2.
Proof.
  intros H1 H2 E1 E2.
  apply decode_encodeURIComponent in E1; [|exact H1].
  apply decode_encodeURIComponent in E2; [|exact H2]. congruence.
Qed.
(** *** The text [createQueryParams] builds *)

(** A code unit that is neither [#], [&] nor [=]. *)
Definition query_safe (c : Z) : bool := negb ((c =? 35) || (c =? 38) || (c =? 61)).

Lemma esc_octet_query_safe b :
  byte b -> Forall (fun c => query_safe c = true) (esc_octet b).
Proof.
  intros Hb.
  assert (H : (fun x => forallb query_safe (esc_octet x)) b = true).
  { apply (range_check 256 (fun x => forallb query_safe (esc_octet x)));
      [vm_compute; reflexivity | unfold byte in Hb; lia]. }
  cbv beta in H. apply List.Forall_forall. intros c Hc.
  rewrite forallb_forall in H. now apply H.
Qed.

Lemma uri_unescaped_query_safe c : uri_unescaped c = true -> query_safe c = true.
Proof.
  intros H. pose proof (uri_unescaped_bound c H) as Hb.
  assert (T : (fun x => negb (uri_unescaped x) || query_safe x) c = true).
  { apply (range_check 128 (fun x => negb (uri_unescaped x) || query_safe x));
      [vm_compute; reflexivity | exact Hb]. }
  cbv beta in T. now rewrite H in T.
Qed.

Lemma flat_map_esc_query_safe bs :
  Forall byte bs -> Forall (fun c => query_safe c = true) (flat_map esc_octet bs).
Proof.
  induction 1 as [|b bs Hb _ IH]; [constructor|]. cbn [flat_map].
  apply List.Forall_app. split; [now apply esc_octet_query_safe | exact IH].
Qed.

Lemma encodeURIComponent_query_safe :
  forall s e, Forall code_unit s -> encodeURIComponent s = Some e ->
  Forall (fun c => query_safe c = true) e.
Proof.
  fix IH 1. intros [|c t] e Hs He.
  - cbn in He. injection He as <-. constructor.
  - inversion Hs as [|? ? Hc Ht]. subst. cbn [encodeURIComponent] in He.
    destruct (uri_unescaped c) eqn:Eu.
    { destruct (encodeURIComponent t) as [r|] eqn:Er; [|discriminate].
      injection He as <-. constructor; [now apply uri_unescaped_query_safe|].
      exact (IH t r Ht Er). }
    destruct ((55296 <=? c) && (c <=? 56319)) eqn:El.
    { destruct t as [|d t']; [discriminate|].
      destruct ((56320 <=? d) && (d <=? 57343)) eqn:Et; [|discriminate].
      destruct (encodeURIComponent t') as [r|] eqn:Er; [|discriminate].
      injection He as <-. inversion Ht as [|? ? Hd Ht']. subst.
      apply andb_true_iff in El as [El1 El2]. apply andb_true_iff in Et as [Et1 Et2].
      apply Z.leb_le in El1, El2, Et1, Et2.
      destruct (surrogate_pair_cp c d) as [Hsv _]; [lia | lia |].
      apply List.Forall_app. split; [|exact (IH t' r Ht' Er)].
      apply flat_map_esc_query_safe, utf8_encode_cp_bytes, Hsv. }
    destruct ((56320 <=? c) && (c <=? 57343)) eqn:Et; [discriminate|].
    destruct (encodeURIComponent t) as [r|] eqn:Er; [|discriminate].
    injection He as <-.
    assert (Hsv : scalar_value c).
    { unfold code_unit in Hc. unfold scalar_value. split; [lia|].
      intros Hr. destruct (Z.leb_spec 55296 c), (Z.leb_spec c 56319),
        (Z.leb_spec 56320 c), (Z.leb_spec c 57343); cbn in El, Et; try discriminate;
        lia. }
    apply List.Forall_app. split; [|exact (IH t r Ht Er)].
    apply flat_map_esc_query_safe, utf8_encode_cp_bytes, Hsv.
Qed.

Lemma query_safe_not_in x s :
  Forall (fun c => query_safe c = true) s -> x = 35 \/ x = 38 \/ x = 61 -> ~ In x s.
Proof.
  intros H Hx Hin. rewrite List.Forall_forall in H. specialize (H x Hin).
  unfold query_safe in H. destruct Hx as [ -> | [ -> | -> ] ]; discriminate.
Qed.

Lemma split_on_none c s : ~ In c s -> split_on c s = [s].
Proof.
  induction s as [|x t IH]; intros H; [reflexivity|]. cbn [split_on].
  destruct (Z.eqb_spec x c) as [->|_]; [exfalso; apply H; now left|].
  rewrite IH by (intros Hin; apply H; now right). reflexivity.
Qed.

Lemma key_val_of ek ev :
  ~ In 61 ek -> ~ In 61 ev ->
  key_of (ek ++ [61] ++ ev) = ek /\ val_of (ek ++ [61] ++ ev) = JString ev.
Proof.
  intros H1 H2. unfold key_of, val_of. cbn [app].
  rewrite split_on_app, (split_on_none _ ek H1), (split_on_none _ ev H2).
  split; reflexivity.
Qed.

Lemma strip_fragment_none s : ~ In 35 s -> strip_fragment s = s.
Proof.
  induction s as [|x t IH]; intros H; [reflexivity|]. cbn [strip_fragment].
  destruct (Z.eqb_spec x 35) as [->|_]; [exfalso; apply H; now left|].
  rewrite IH by (intros Hin; apply H; now right). reflexivity.
Qed.

Lemma traverse_opt_out {A B} (f : A -> option B) l l' y :
  traverse_opt f l = Some l' -> In y l' -> exists x, In x l /\ f x = Some y.
Proof.
  revert l'. induction l as [|x t IH]; intros l' H Hy; cbn in H.
  - injection H as <-. destruct Hy.
  - destruct (f x) as [y'|] eqn:Ef; [|discriminate].
    destruct (traverse_opt f t) as [ys|] eqn:Et; [|discriminate].
    injection H as <-. destruct Hy as [E|Hy'].
    + subst y'. exists x. split; [now left | exact Ef].
    + destruct (IH ys eq_refl Hy') as (x' & ? & ?). exists x'. split; [now right | auto].
Qed.

Lemma traverse_opt_in {A B} (f : A -> option B) l l' x :
  traverse_opt f l = Some l' -> In x l -> exists y, In y l' /\ f x = Some y.
Proof.
  revert l'. induction l as [|x0 t IH]; intros l' H Hx; cbn in H; [destruct Hx|].
  destruct (f x0) as [y'|] eqn:Ef; [|discriminate].
  destruct (traverse_opt f t) as [ys|] eqn:Et; [|discriminate].
  injection H as <-. destruct Hx as [<-|Hx]; [exists y'; split; [now left | exact Ef]|].
  destruct (IH ys eq_refl Hx) as (y & ? & ?). exists y. split; [now right | auto].
Qed.

Lemma insert_by_index_In kn l x : In x (insert_by_index kn l) <-> x = kn \/ In x l.
Proof.
  induction l as [|kn' t IH]; cbn [insert_by_index]; [cbn; intuition|].
  destruct (snd kn <=? snd kn'); cbn [In]; [intuition|]. rewrite IH. intuition.
Qed.

Lemma fold_insert_In l x : In x (fold_right insert_by_index [] l) <-> In x l.
Proof.
  induction l as [|kn t IH]; [reflexivity|]. cbn [fold_right].
  rewrite insert_by_index_In, IH. cbn. intuition.
Qed.

Lemma object_keys_In o k : In k (object_keys o) <-> In k (map fst o).
Proof.
  unfold object_keys. rewrite in_app_iff, in_map_iff, filter_In. split.
  - intros [((k', n) & <- & Hin) | [Hk _]]; [|exact Hk].
    apply fold_insert_In, in_flat_map in Hin as (k0 & Hk0 & Hin).
    destruct (array_index_value k0); [|destruct Hin].
    destruct Hin as [E|[]]. injection E as -> ->. exact Hk0.
  - intros Hk. destruct (array_index_value k) as [n|] eqn:E.
    + left. exists (k, n). split; [reflexivity|].
      apply fold_insert_In, in_flat_map. exists k. rewrite E. split; [exact Hk | now left].
    + right. split; [exact Hk | reflexivity].
Qed.

Lemma obj_get_In o k v : obj_get o k = Some v -> In (k, v) o.
Proof.
  induction o as [|[k0 v0] t IH]; cbn; [discriminate|].
  destruct (jsstr_eqb k k0) eqn:E; [|auto].
  apply jsstr_eqb_spec in E. intros H. injection H as <-. subst. now left.
Qed.

Lemma obj_read_defined o k :
  obj_read o k <> JUndefined -> In (k, obj_read o k) o.
Proof.
  unfold obj_read. destruct (obj_get o k) eqn:E; [|congruence].
  intros _. now apply obj_get_In.
Qed.

(** Every string [createQueryParams] reads is made of code units: the keys
    and the [ToString] of the values. *)
Definition params_strings (object_to_string : positive -> option jsstr)
    (params : jsobj) : Prop :=
  Forall (fun kv => Forall code_unit (fst kv)
                    /\ forall sv, to_str_val object_to_string (snd kv) = Some sv ->
                                  Forall code_unit sv) params.

Lemma params_strings_read ots params k :
  params_strings ots params -> obj_read params k <> JUndefined ->
  Forall code_unit k
  /\ forall sv, to_str_val ots (obj_read params k) = Some sv -> Forall code_unit sv.
Proof.
  intros Hp Hd. apply obj_read_defined in Hd.
  unfold params_strings in Hp. rewrite List.Forall_forall in Hp.
  exact (Hp _ Hd).
Qed.

Lemma createQueryParams_parts ots params q :
  params_strings ots params -> createQueryParams ots params = Some q ->
  exists parts, q = join [38] parts
  /\ (forall y, In y parts -> exists k ek sv ev,
        obj_read params k <> JUndefined /\ Forall code_unit k
        /\ encodeURIComponent k = Some ek
        /\ to_str_val ots (obj_read params k) = Some sv /\ Forall code_unit sv
        /\ encodeURIComponent sv = Some ev /\ y = ek ++ [61] ++ ev)
  /\ (forall k, obj_read params k <> JUndefined -> exists y, In y parts
        /\ exists ek sv ev, encodeURIComponent k = Some ek
        /\ to_str_val ots (obj_read params k) = Some sv
        /\ encodeURIComponent sv = Some ev /\ y = ek ++ [61] ++ ev).
Proof.
  intros Hp Hq. unfold createQueryParams in Hq.
  destruct (traverse_opt _ _) as [parts|] eqn:Ht; [|discriminate].
  injection Hq as <-. exists parts. split; [reflexivity|]. split.
  - intros y Hy. destruct (traverse_opt_out _ _ _ _ Ht Hy) as (k & Hk & Hg).
    apply filter_In in Hk as [_ Hd]. apply negb_true_iff in Hd.
    assert (Hd' : obj_read params k <> JUndefined)
      by (intros E; rewrite E in Hd; discriminate).
    destruct (params_strings_read ots params k Hp Hd') as [Hck Hcv].
    destruct (encodeURIComponent k) as [ek|] eqn:Ek; [|discriminate].
    destruct (to_str_val ots (obj_read params k)) as [sv|] eqn:Es; [|discriminate].
    destruct (encodeURIComponent sv) as [ev|] eqn:Ev; [|discriminate].
    injection Hg as <-. exists k, ek, sv, ev. repeat split; auto.
  - intros k Hd.
    assert (Hk : In k (List.filter (fun k => negb (typeof_undefined (obj_read params k)))
                                   (object_keys params))).
    { apply filter_In. split.
      - apply object_keys_In, in_map_iff. exists (k, obj_read params k).
        split; [reflexivity | now apply obj_read_defined].
      - destruct (obj_read params k); [congruence | reflexivity ..]. }
    destruct (traverse_opt_in _ _ _ _ Ht Hk) as (y & Hy & Hg). exists y.
    split; [exact Hy|].
    destruct (encodeURIComponent k) as [ek|] eqn:Ek; [|discriminate].
    destruct (to_str_val ots (obj_read params k)) as [sv|] eqn:Es; [|discriminate].
    destruct (encodeURIComponent sv) as [ev|] eqn:Ev; [|discriminate].
    injection Hg as <-. exists ek, sv, ev. auto.
Qed.

Lemma query_part_fields ek ev :
  Forall (fun c => query_safe c = true) ek -> Forall (fun c => query_safe c = true) ev ->
  ~ In 35 (ek ++ [61] ++ ev) /\ ~ In 38 (ek ++ [61] ++ ev)
  /\ key_of (ek ++ [61] ++ ev) = ek /\ val_of (ek ++ [61] ++ ev) = JString ev.
Proof.
  intros H1 H2.
  assert (N : forall x, x = 35 \/ x = 38 -> ~ In x (ek ++ [61] ++ ev)).
  { intros x Hx Hin. apply in_app_iff in Hin as [Hin|Hin].
    - apply (query_safe_not_in x ek H1); [tauto | exact Hin].
    - apply in_app_iff in Hin as [[E|[]]|Hin]; [lia|].
      apply (query_safe_not_in x ev H2); [tauto | exact Hin]. }
  split; [apply N; now left|]. split; [apply N; now right|].
  apply key_val_of; [apply (query_safe_not_in _ ek H1) | apply (query_safe_not_in _ ev H2)];
    auto.
Qed.

(** *** [Object.assign] and the rest properties of a destructuring *)

Lemma obj_get_notin o k : ~ In k (map fst o) -> obj_get o k = None.
Proof.
  induction o as [|[k0 v0] t IH]; intros H; [reflexivity|]. cbn [obj_get].
  rewrite jsstr_eqb_neq by (intros ->; apply H; now left).
  apply IH. intros Hin. apply H. now right.
Qed.

Lemma obj_assign_get t src k :
  List.NoDup (map fst src) ->
  obj_get (obj_assign t src) k =
    match obj_get src k with Some v => Some v | None => obj_get t k end.
Proof.
  revert t. induction src as [|[k0 v0] rest IH]; intros t Hnd; [reflexivity|].
  inversion Hnd as [|? ? Hk0 Hnd']. subst.
  change (obj_assign t ((k0, v0) :: rest)) with (obj_assign (obj_set t k0 v0) rest).
  rewrite IH by exact Hnd'. cbn [obj_get].
  destruct (jsstr_eqb k k0) eqn:E.
  - apply jsstr_eqb_spec in E. subst k0.
    rewrite obj_get_notin by exact Hk0. apply obj_get_set_eq.
  - destruct (obj_get rest k); [reflexivity|]. now rewrite obj_get_set, E.
Qed.

Lemma obj_get_filter_keys (q : jsstr -> bool) o k :
  obj_get (List.filter (fun kv : jsstr * jsval => q (fst kv)) o) k = if q k then obj_get o k else None.
Proof.
  induction o as [|[k0 v0] t IH]; cbn [List.filter obj_get fst].
  - now destruct (q k).
  - destruct (q k0) eqn:Q; cbn [obj_get]; rewrite IH;
      destruct (jsstr_eqb k k0) eqn:E; try reflexivity;
      apply jsstr_eqb_spec in E; subst k0; now rewrite Q.
Qed.

Lemma NoDup_filter_keys (q : jsstr -> bool) o :
  List.NoDup (map fst o) -> List.NoDup (map fst (List.filter (fun kv : jsstr * jsval => q (fst kv)) o)).
Proof.
  induction o as [|[k0 v0] t IH]; intros H; [constructor|].
  inversion H as [|? ? Hk0 Ht]. subst. cbn [List.filter fst].
  destruct (q k0); [|now apply IH]. cbn [map fst]. constructor; [|now apply IH].
  intros Hin. apply Hk0. apply in_map_iff in Hin as ([k1 v1] & E & Hin).
  cbn in E. subst k1. apply filter_In in Hin as [Hin _].
  apply in_map_iff. now exists (k0, v1).
Qed.

(** *** The message [switchFetch] posts to the worker *)

Lemma obj_delete_keys o k k' : In k' (map fst (obj_delete o k)) -> In k' (map fst o).
Proof.
  induction o as [|[k0 v0] t IH]; cbn; [tauto|].
  destruct (jsstr_eqb k k0); cbn; intuition.
Qed.

Lemma NoDup_obj_delete o k : List.NoDup (map fst o) -> List.NoDup (map fst (obj_delete o k)).
Proof.
  induction o as [|[k0 v0] t IH]; intros H; cbn; [constructor|].
  inversion H as [|? ? Hk0 Ht]. subst.
  destruct (jsstr_eqb k k0); [now apply IH|]. cbn [map fst].
  constructor; [|now apply IH]. intros Hin. apply Hk0. exact (obj_delete_keys _ _ _ Hin).
Qed.

Lemma obj_set_keys o k v k' :
  In k' (map fst (obj_set o k v)) -> k' = k \/ In k' (map fst o).
Proof.
  induction o as [|[k0 v0] t IH]; cbn; [intuition|].
  destruct (jsstr_eqb k k0); cbn; intuition.
Qed.

Lemma NoDup_obj_set o k v : List.NoDup (map fst o) -> List.NoDup (map fst (obj_set o k v)).
Proof.
  induction o as [|[k0 v0] t IH]; intros H; cbn; [repeat constructor; tauto|].
  inversion H as [|? ? Hk0 Ht]. subst.
  destruct (jsstr_eqb k k0) eqn:E; cbn [map fst]; constructor; try exact Ht;
    [| |now apply IH].
  - exact Hk0.
  - intros Hin. apply obj_set_keys in Hin as [->|Hin]; [|contradiction].
    now rewrite jsstr_eqb_refl in E.
Qed.

Lemma alloc_lookup h o : snd (alloc h o) !! fst (alloc h o) = Some o.
Proof. unfold alloc. cbn. apply lookup_insert_eq. Qed.

(** *** Base64 text without its padding *)

Lemma filter_pad_sextets sx k :
  Forall sextet sx ->
  List.filter (fun c => negb (c =? 61)) (map b64_char sx ++ repeat 61 k) = map b64_char sx.
Proof.
  intros H. rewrite List.filter_app.
  replace (List.filter (fun c => negb (c =? 61)) (repeat 61 k)) with (@nil Z)
    by (induction k as [|k IH]; [reflexivity | exact IH]).
  rewrite app_nil_r.
  induction H as [|i sx Hi _ IH]; [reflexivity|].
  destruct (sextet_facts i Hi) as (_ & _ & H61 & _).
  cbn [map List.filter]. rewrite H61, IH. reflexivity.
Qed.
(** *** [getUniqueScopes] applied to its own result *)

(** Leading empty tokens removed. *)
Fixpoint drop_empty (d : list jsstr) : list jsstr :=
  match d with
  | [] :: t => drop_empty t
  | _ => d
  end.

(** The tokens left once [trim] has removed the spaces at both ends. *)
Definition trim_tokens (d : list jsstr) : list jsstr := rev (drop_empty (rev (drop_empty d))).

Definition no_ws (x : jsstr) : Prop := Forall (fun c => is_ws c = false) x.

Lemma drop_empty_idem d : drop_empty (drop_empty d) = drop_empty d.
Proof. induction d as [|[|c x] t IH]; [reflexivity | exact IH | reflexivity]. Qed.

Lemma drop_empty_shape d :
  drop_empty d = [] \/ exists c x t, drop_empty d = (c :: x) :: t.
Proof. induction d as [|[|c x] t IH]; [now left | exact IH | right; eauto]. Qed.

Lemma drop_empty_split d : exists n, d = repeat [] n ++ drop_empty d.
Proof.
  induction d as [|[|c x] t [n IH]]; [now exists 0%nat | | now exists 0%nat].
  exists (S n). cbn. now f_equal.
Qed.

Lemma drop_empty_In d y : In y (drop_empty d) -> In y d.
Proof. induction d as [|[|c x] t IH]; cbn; auto. Qed.

Lemma drop_empty_NoDup d : List.NoDup d -> List.NoDup (drop_empty d).
Proof.
  destruct (drop_empty_split d) as [n E]. rewrite E at 1.
  apply NoDup_app_remove_l.
Qed.

Lemma trim_tokens_In d y : In y (trim_tokens d) -> In y d.
Proof.
  unfold trim_tokens. intros H. apply in_rev, drop_empty_In, in_rev, drop_empty_In in H.
  exact H.
Qed.

Lemma trim_tokens_NoDup d : List.NoDup d -> List.NoDup (trim_tokens d).
Proof.
  intros H. unfold trim_tokens.
  apply NoDup_rev, drop_empty_NoDup, NoDup_rev, drop_empty_NoDup, H.
Qed.

Lemma trim_tokens_drop d : drop_empty (trim_tokens d) = trim_tokens d.
Proof.
  unfold trim_tokens.
  set (y := drop_empty d). set (z := drop_empty (rev y)).
  destruct (drop_empty_split (rev y)) as [n E]. fold z in E.
  assert (Ey : y = rev z ++ repeat [] n).
  { rewrite <- (rev_involutive y), E, rev_app_distr.
    f_equal. clear. induction n as [|n IH]; [reflexivity|].
    cbn [repeat rev]. rewrite IH. clear IH. induction n; [reflexivity|].
    cbn. now f_equal. }
  destruct (rev z) as [|a r] eqn:Er; [reflexivity|].
  destruct (drop_empty_shape d) as [Hd | (c & x & t & Hd)]; fold y in Hd.
  - rewrite Hd in Ey. destruct n; discriminate.
  - rewrite Hd in Ey. cbn in Ey. injection Ey as <- _. reflexivity.
Qed.

Lemma trim_tokens_idem d : trim_tokens (trim_tokens d) = trim_tokens d.
Proof.
  unfold trim_tokens at 1. rewrite trim_tokens_drop.
  unfold trim_tokens. rewrite rev_involutive. now rewrite drop_empty_idem.
Qed.

Lemma skip_ws_join d :
  Forall no_ws d -> skip_ws (join [32] d) = join [32] (drop_empty d).
Proof.
  induction 1 as [|x t Hx Ht IH]; [reflexivity|].
  destruct x as [|c x].
  - destruct t as [|y t]; [reflexivity|].
    rewrite join_cons by discriminate. cbn [app skip_ws is_ws existsb Z.eqb].
    cbn [orb]. rewrite IH. reflexivity.
  - inversion Hx as [|? ? Hc _]. subst.
    destruct t as [|y t]; cbn [drop_empty]; [cbn [join skip_ws]; now rewrite Hc|].
    rewrite join_cons by discriminate. cbn [app skip_ws]. now rewrite Hc.
Qed.

Lemma no_ws_rev x : no_ws x -> no_ws (rev x).
Proof. unfold no_ws. intros H. apply List.Forall_forall. intros c Hc.
  apply in_rev in Hc. rewrite List.Forall_forall in H. now apply H. Qed.

Lemma Forall_no_ws_drop d : Forall no_ws d -> Forall no_ws (drop_empty d).
Proof.
  intros H. apply List.Forall_forall. intros y Hy. apply drop_empty_In in Hy.
  rewrite List.Forall_forall in H. now apply H.
Qed.

Lemma drop_empty_map_rev d : drop_empty (map (@rev Z) d) = map (@rev Z) (drop_empty d).
Proof.
  induction d as [|[|c x] t IH]; [reflexivity | exact IH|].
  cbn [map drop_empty]. destruct (rev (c :: x)) eqn:E; [|reflexivity].
  apply (f_equal (@length Z)) in E. rewrite length_rev in E. discriminate.
Qed.

Lemma trim_join d : Forall no_ws d -> trim (join [32] d) = join [32] (trim_tokens d).
Proof.
  intros H. unfold trim. rewrite skip_ws_join by exact H.
  rewrite join_rev. rewrite skip_ws_join.
  2:{ apply List.Forall_forall. intros y Hy. apply in_rev, in_map_iff in Hy as (x & <- & Hx).
      apply no_ws_rev. apply drop_empty_In in Hx. rewrite List.Forall_forall in H. auto. }
  rewrite join_rev. f_equal. unfold trim_tokens.
  rewrite <- (map_rev (@rev Z) (drop_empty d)), drop_empty_map_rev, map_map.
  f_equal. rewrite <- (map_id (drop_empty (rev (drop_empty d)))) at 1.
  apply map_ext. intros x. apply rev_involutive.
Qed.

Lemma ws_to_comma_join_space l :
  ws_to_comma (join [32] l) = join [44] (map ws_to_comma l).
Proof.
  induction l as [|x t IH]; [reflexivity|].
  destruct t as [|y t]; [reflexivity|].
  rewrite (join_cons _ x) by discriminate.
  change (map ws_to_comma (x :: y :: t)) with (ws_to_comma x :: map ws_to_comma (y :: t)).
  rewrite (join_cons _ (ws_to_comma x)) by (simpl; discriminate).
  rewrite <- IH. unfold ws_to_comma. rewrite !map_app. reflexivity.
Qed.

Lemma ws_to_comma_no_ws_id x : no_ws x -> ws_to_comma x = x.
Proof.
  unfold no_ws, ws_to_comma. induction 1 as [|c x Hc _ IH]; [reflexivity|].
  cbn [map]. now rewrite Hc, IH.
Qed.

Lemma keep_first_id seen l :
  List.NoDup l -> (forall x, In x l -> ~ In x seen) -> keep_first seen l = l.
Proof.
  revert seen. induction l as [|x t IH]; intros seen Hnd Hs; [reflexivity|].
  inversion Hnd as [|? ? Hx Ht]. subst. cbn [keep_first].
  destruct (existsb (jsstr_eqb x) seen) eqn:E.
  - apply existsb_jsstr_eqb in E. exfalso. exact (Hs x (or_introl eq_refl) E).
  - cbn [app]. f_equal. apply IH; [exact Ht|].
    intros y Hy Hin. apply in_app_iff in Hin as [Hin|[<-|[]]].
    + exact (Hs y (or_intror Hy) Hin).
    + contradiction.
Qed.


Lemma fetch_loop_settles fetch n i e r :
  (0 < n)%nat ->
  match fetch_loop fetch n i e r with
  | (None, None, _) => False
  | _ => True
  end.
Proof.
  revert i e r. induction n as [|n IH]; intros i e r Hn; [lia|].
  cbn [fetch_loop]. destruct (fetch i); [|exact I].
  destruct n as [|n]; [exact I|]. apply IH. lia.
Qed.

Lemma iframe_step_settled_out o s ev :
  (if_promise s <> Pending -> if_promise (iframe_step o s ev) = if_promise s)
  /\ (if_in_body s = false -> if_in_body (iframe_step o s ev) = false).
Proof.
  destruct ev as [e| |]; cbn [iframe_step].
  - destruct (0 <? if_listeners s)%nat; [|tauto].
    unfold iframeEventHandler.
    destruct (negb (jsstr_eqb (ev_origin e) o)); [tauto|].
    destruct (negb (tagged (ev_data e))); [tauto|].
    destruct (ev_data e) as [|t [r|]]; cbn [if_promise if_in_body]; [tauto| |tauto].
    split; [|tauto]. intros Hp.
    unfold reject_p, resolve_p. destruct (truthy _), (if_promise s); congruence.
  - destruct (0 <? if_timers s)%nat; [|tauto]. cbn [if_promise if_in_body].
    split; [|reflexivity]. intros Hp. unfold reject_p. destruct (if_promise s); congruence.
  - destruct (if_cleanups s); cbn [if_promise if_in_body]; tauto.
Qed.


(* ------------------------------------------------------------------ *)
(** *** Decoding escaped octets succeeds only on UTF-8 *)

Lemma cont_of_land c : byte c -> (Z.land c 192 =? 128) = true -> cont c.
Proof.
  intros Hb H. unfold byte, cont in *.
  assert (R : (fun x => negb (Z.land x 192 =? 128) || ((128 <=? x) && (x <? 192))) c = true).
  { apply (range_check 256 (fun x => negb (Z.land x 192 =? 128) || ((128 <=? x) && (x <? 192))));
      [vm_compute; reflexivity | lia]. }
  cbv beta in R. rewrite H in R. cbn [negb orb] in R.
  apply andb_true_iff in R as [R1 R2]. apply Z.leb_le in R1. apply Z.ltb_lt in R2. lia.
Qed.

Lemma read_conts_pct_inv k t cs rest :
  Forall byte t -> read_conts k (flat_map pct t) = Some (cs, rest) ->
  exists t', t = cs ++ t' /\ Forall cont cs /\ rest = flat_map pct t' /\ length cs = k.
Proof.
  revert t cs rest. induction k as [|k IH]; intros t cs rest Ht H.
  - cbn [read_conts] in H. injection H as <- <-. exists t.
    split; [reflexivity|]. split; [constructor|]. split; reflexivity.
  - destruct t as [|c t]; [discriminate|].
    apply Forall_cons in Ht as [Hc Ht].
    cbn [read_conts flat_map] in H. rewrite pct_escape in H by exact Hc.
    destruct (Z.land c 192 =? 128) eqn:Ecl; [|discriminate].
    destruct (read_conts k (flat_map pct t)) as [[cs' rest']|] eqn:E; [|discriminate].
    injection H as <- <-.
    destruct (IH t cs' rest' Ht E) as (t' & -> & Hcs & -> & Hlen).
    exists t'. split; [reflexivity|]. split; [|split; [reflexivity | cbn; lia]].
    constructor; [now apply cont_of_land | exact Hcs].
Qed.

Lemma lead_ones_range b n :
  lead_ones b = n ->
  match n with
  | O => b < 128
  | 2%nat => 192 <= b < 224
  | 3%nat => 224 <= b < 240
  | 4%nat => 240 <= b < 248
  | _ => True
  end.
Proof.
  unfold lead_ones. intros <-.
  repeat match goal with |- context [?a <? ?b] => destruct (Z.ltb_spec a b) end; lia.
Qed.

Lemma utf8_seq_cp n b cs :
  lead_ones b = n -> (2 <= n <= 4)%nat -> Forall cont cs -> length cs = (n - 1)%nat ->
  utf8_valid n (utf8_value n b cs) = true ->
  scalar_value (utf8_value n b cs) /\ utf8_encode_cp (utf8_value n b cs) = b :: cs.
Proof.
  intros Hl Hn Hcs Hlen Hv. apply lead_ones_range in Hl.
  unfold scalar_value, utf8_encode_cp.
  destruct n as [|[|[|[|[|n]]]]]; try lia; unfold utf8_value in *.
  - destruct cs as [|c1 [|]]; try discriminate.
    inversion Hcs as [|? ? Hc1 _]. unfold cont in Hc1.
    cbn [fold_left utf8_valid] in *. change (Z.shiftr 127 (Z.of_nat 2)) with 31 in *.
    rewrite land_31, land_63 in *.
    replace (b mod 32) with (b - 192) in * by (Z.div_mod_to_equations; lia).
    replace (c1 mod 64) with (c1 - 128) in * by (Z.div_mod_to_equations; lia).
    apply Z.leb_le in Hv.
    destruct (Z.ltb_spec ((b - 192) * 64 + (c1 - 128)) 128); [lia|].
    destruct (Z.ltb_spec ((b - 192) * 64 + (c1 - 128)) 2048); [|lia].
    split; [lia|]. f_equal; [|f_equal]; Z.div_mod_to_equations; lia.
  - destruct cs as [|c1 [|c2 [|]]]; try discriminate.
    inversion Hcs as [|? ? Hc1 H2]. inversion H2 as [|? ? Hc2 _]. unfold cont in *.
    cbn [fold_left utf8_valid] in *. change (Z.shiftr 127 (Z.of_nat 3)) with 15 in *.
    rewrite land_15, !land_63 in *.
    replace (b mod 16) with (b - 224) in * by (Z.div_mod_to_equations; lia).
    replace (c1 mod 64) with (c1 - 128) in * by (Z.div_mod_to_equations; lia).
    replace (c2 mod 64) with (c2 - 128) in * by (Z.div_mod_to_equations; lia).
    set (v := ((b - 224) * 64 + (c1 - 128)) * 64 + (c2 - 128)) in *.
    apply andb_true_iff in Hv as [Hv1 Hv2]. apply Z.leb_le in Hv1.
    apply negb_true_iff, andb_false_iff in Hv2.
    assert (Hs : ~ (55296 <= v <= 57343)).
    { destruct Hv2 as [E|E]; [apply Z.leb_gt in E | apply Z.leb_gt in E]; lia. }
    destruct (Z.ltb_spec v 128); [lia|]. destruct (Z.ltb_spec v 2048); [lia|].
    destruct (Z.ltb_spec v 65536); [|unfold v in *; lia].
    split; [unfold v in *; lia|]. unfold v.
    f_equal; [|f_equal; [|f_equal]]; Z.div_mod_to_equations; lia.
  - destruct cs as [|c1 [|c2 [|c3 [|]]]]; try discriminate.
    inversion Hcs as [|? ? Hc1 H2]. inversion H2 as [|? ? Hc2 H3].
    inversion H3 as [|? ? Hc3 _]. unfold cont in *.
    cbn [fold_left utf8_valid] in *. change (Z.shiftr 127 (Z.of_nat 4)) with 7 in *.
    rewrite land_7, !land_63 in *.
    replace (b mod 8) with (b - 240) in * by (Z.div_mod_to_equations; lia).
    replace (c1 mod 64) with (c1 - 128) in * by (Z.div_mod_to_equations; lia).
    replace (c2 mod 64) with (c2 - 128) in * by (Z.div_mod_to_equations; lia).
    replace (c3 mod 64) with (c3 - 128) in * by (Z.div_mod_to_equations; lia).
    set (v := (((b - 240) * 64 + (c1 - 128)) * 64 + (c2 - 128)) * 64 + (c3 - 128)) in *.
    apply andb_true_iff in Hv as [Hv1 Hv2]. apply Z.leb_le in Hv1, Hv2.
    destruct (Z.ltb_spec v 128); [lia|]. destruct (Z.ltb_spec v 2048); [lia|].
    destruct (Z.ltb_spec v 65536); [lia|].
    split; [lia|]. unfold v.
    f_equal; [|f_equal; [|f_equal; [|f_equal]]]; Z.div_mod_to_equations; lia.
Qed.

(** A successful [decodeURIComponent] of percent-escaped octets decodes a
    UTF-8 encoding of scalar values. *)
Lemma decode_pct_inv f l s :
  Forall byte l -> decode_fuel f (flat_map pct l) = Some s ->
  exists cps, Forall scalar_value cps /\ utf8_encode cps = l /\ s = utf16_encode cps.
Proof.
  revert l s. induction f as [|f IH]; intros l s Hl H.
  - destruct l as [|b t].
    + cbn in H. injection H as <-. exists [].
      split; [constructor|]. split; reflexivity.
    + cbn [flat_map] in H. destruct (pct_head b) as [tb Etb].
      rewrite Etb in H. discriminate.
  - destruct l as [|b t].
    + cbn in H. injection H as <-. exists [].
      split; [constructor|]. split; reflexivity.
    + apply Forall_cons in Hl as [Hb Ht].
      cbn [flat_map] in H. pose proof (pct_escape b (flat_map pct t) Hb) as R.
      destruct (pct_head b) as [tb Etb]. rewrite Etb in R, H.
      cbn [app decode_fuel] in H, R. rewrite Z.eqb_refl, R in H.
      destruct (lead_ones b) as [|n] eqn:Hlo.
      * destruct (decode_fuel f (flat_map pct t)) as [r|] eqn:Er; [|discriminate].
        injection H as <-. destruct (IH t r Ht Er) as (cps & Hc & Eu & ->).
        apply lead_ones_range in Hlo. unfold byte in Hb.
        exists (b :: cps). split; [constructor; [unfold scalar_value; lia | exact Hc]|].
        change (utf8_encode (b :: cps)) with (utf8_encode_cp b ++ utf8_encode cps).
        change (utf16_encode (b :: cps)) with (utf16_encode_cp b ++ utf16_encode cps).
        unfold utf8_encode_cp, utf16_encode_cp.
        destruct (Z.ltb_spec b 128); [|lia]. destruct (Z.ltb_spec b 65536); [|lia].
        rewrite Eu. split; reflexivity.
      * destruct ((S n =? 1)%nat || (4 <? S n)%nat) eqn:Hn; [discriminate|].
        apply orb_false_iff in Hn as [Hn1 Hn2].
        apply Nat.eqb_neq in Hn1. apply Nat.ltb_ge in Hn2.
        destruct (read_conts (S n - 1) (flat_map pct t)) as [[cs rest']|] eqn:Ec;
          [|discriminate].
        destruct (utf8_valid (S n) (utf8_value (S n) b cs)) eqn:Hv; [|discriminate].
        destruct (decode_fuel f rest') as [r|] eqn:Er; [|discriminate].
        injection H as <-.
        destruct (read_conts_pct_inv _ _ _ _ Ht Ec) as (t' & -> & Hcs & -> & Hlen).
        apply List.Forall_app in Ht as [_ Ht'].
        destruct (IH t' r Ht' Er) as (cps & Hc & Eu & ->).
        destruct (utf8_seq_cp (S n) b cs Hlo ltac:(lia) Hcs Hlen Hv) as [Hsv Ee].
        exists (utf8_value (S n) b cs :: cps).
        split; [constructor; assumption|].
        change (utf8_encode (?x :: cps)) with (utf8_encode_cp x ++ utf8_encode cps).
        change (utf16_encode (?x :: cps)) with (utf16_encode_cp x ++ utf16_encode cps).
        rewrite Ee, Eu. split; reflexivity.
Qed.


(* ------------------------------------------------------------------ *)
(** *** [parseInt] of a value that starts with decimal digits *)




(* ================================================================== *)
(** * Claims *)



(** C7 (code_bug).  A comma followed by a space (or two adjacent
    delimiters) leaves an empty token that [dedupe] keeps, so the result
    has two spaces in a row: [getUniqueScopes('openid, profile')] is
    ['openid  profile'], not ['openid profile'].  The spec's example
    [getUniqueScopes('a b', 'b,c') = 'a b c'] holds. *)
Theorem getUniqueScopes_empty_token :
  getUniqueScopes [js "openid, profile"] = js "openid  profile"
  /\ getUniqueScopes [js "a b"; js "b,c"] = js "a b c".
Proof. split; vm_compute; reflexivity. Qed.

(** C8.  For the 43 bytes drawn by [getRandomValues], [createRandomString]
    returns exactly the characters [charset[v % 66]], one per byte; the
    output has 43 characters, all from the 66-character alphabet of
    letters, digits and [-_~.], which is exactly [charset]. *)
Theorem createRandomString_spec (randomValues : list Z) :
  length randomValues = 43%nat ->
  createRandomString randomValues =
    map (fun v => nth (Z.to_nat (v mod 66)) charset 0) randomValues
  /\ length (createRandomString randomValues) = 43%nat
  /\ Forall (fun c => unreserved c = true) (createRandomString randomValues)
  /\ length charset = 66%nat
  /\ (forall c, In c charset <-> unreserved c = true).
Proof.
  intros Hlen.
  assert (Hmap : createRandomString randomValues =
                 map (fun v => nth (Z.to_nat (v mod 66)) charset 0) randomValues).
  { unfold createRandomString. now rewrite (fold_append_map id). }
  split; [exact Hmap|]. rewrite Hmap.
  split; [now rewrite length_map|].
  split; [|split; [reflexivity | exact charset_unreserved]].
  apply List.Forall_forall. intros c Hc. apply in_map_iff in Hc.
  destruct Hc as (v & <- & _). apply charset_unreserved.
  apply nth_In. change (length charset) with 66%nat.
  pose proof (Z.mod_pos_bound v 66). lia.
Qed.

(** C8, witness: the theorem at the 43 bytes 0, 1, ..., 42. *)
Lemma createRandomString_spec_witness :
  length (map Z.of_nat (seq 0 43)) = 43%nat /\
  length (createRandomString (map Z.of_nat (seq 0 43))) = 43%nat.
Proof.
  split; [reflexivity|].
  destruct (createRandomString_spec (map Z.of_nat (seq 0 43)) eq_refl)
    as (_ & Hlen & _).
  exact Hlen.
Defined.




(** C9.  Message events whose origin differs from [eventOrigin], or whose
    payload is not tagged ['authorization_response'], are dropped by
    [runIframe] without error: the attempt is left exactly as it was.
    From the start of an attempt, the promise stays pending, the iframe
    stays in the document, and the listener and the timeout stay armed. *)
Theorem runIframe_ignores_foreign_messages (eventOrigin : jsstr)
    (es : list message_event) :
  Forall (fun e => ev_origin e <> eventOrigin \/ tagged (ev_data e) = false) es ->
  (forall s, run_iframe eventOrigin s (map IMessage es) = s)
  /\ run_iframe eventOrigin runIframe_start (map IMessage es) = runIframe_start
  /\ if_promise runIframe_start = Pending /\ if_in_body runIframe_start = true
  /\ if_listeners runIframe_start = 1%nat /\ if_timers runIframe_start = 1%nat.
Proof.
  intros H. split; [intros s; now apply run_iframe_foreign|].
  split; [now apply run_iframe_foreign|]. repeat split.
Qed.

(** C9, witness: a tagged response from another origin and an untagged
    message from the expected origin. *)
Lemma runIframe_ignores_foreign_messages_witness :
  run_iframe (js "https://tenant.auth0.com") runIframe_start
    (map IMessage
       [{| ev_origin := js "https://evil.example";
           ev_data := DataObj (JString (js "authorization_response"))
                        (Some [(js "code", JString (js "abc"))]);
           ev_has_source := true |};
        {| ev_origin := js "https://tenant.auth0.com";
           ev_data := DataObj (JString (js "other")) None;
           ev_has_source := false |}])
  = runIframe_start.
Proof.
  apply (runIframe_ignores_foreign_messages (js "https://tenant.auth0.com")).
  constructor; [left; vm_compute; discriminate|].
  constructor; [right; vm_compute; reflexivity|].
  constructor.
Defined.

(** C5 (corrected).  When the timeout fires before any matching message,
    [runIframe] rejects with [{error: 'timeout', error_description:
    'Timeout'}] and removes the iframe; [runPopup] rejects with
    [{error: 'timeout', error_description: 'Timeout', popup}] and leaves the
    popup open (it makes no [popup.close()] call): the handle goes to the
    caller. *)
Theorem run_timeout_before_message :
  TIMEOUT_ERROR = [(js "error", JString (js "timeout"));
                   (js "error_description", JString (js "Timeout"))]
  /\ (forall p, popup_timeout_error p = TIMEOUT_ERROR ++ [(js "popup", JRef p)])
  /\ (forall eventOrigin es,
        Forall (fun e => ev_origin e <> eventOrigin \/ tagged (ev_data e) = false) es ->
        let s := run_iframe eventOrigin runIframe_start
                   (map IMessage es ++ [ITimeoutFires]) in
        if_promise s = PRejected TIMEOUT_ERROR /\ if_in_body s = false)
  /\ (forall config_popup opened st es,
        runPopup_start config_popup opened = Some st ->
        Forall (fun e => tagged (ev_data e) = false) es ->
        let s := run_popup st (map PMessage es ++ [PTimeoutFires]) in
        pp_promise s = PRejected (popup_timeout_error (pp_popup st))
        /\ pp_close_calls s = 0%nat).
Proof.
  split; [reflexivity|]. split; [reflexivity|]. split.
  - intros o es H. cbv zeta. rewrite run_iframe_app, run_iframe_foreign by exact H.
    split; reflexivity.
  - intros cp op st es Hst H. cbv zeta.
    rewrite run_popup_app, run_popup_untagged by exact H.
    unfold runPopup_start in Hst.
    destruct (match cp with Some p => Some p | None => op end); [|discriminate].
    injection Hst as <-. split; reflexivity.
Qed.

(** C5, counterexample: the popup is not closed when the timeout fires. *)
Lemma runPopup_timeout_leaves_popup_open :
  exists st,
    runPopup_start None (Some 1%positive) = Some st
    /\ pp_promise (run_popup st [PTimeoutFires]) = PRejected (popup_timeout_error 1%positive)
    /\ pp_close_calls (run_popup st [PTimeoutFires]) = 0%nat.
Proof. eexists. split; [reflexivity|]. split; reflexivity. Qed.



(** C10.  [fetchWithTimeout] never changes the caller's [options] object:
    whether the fetch is direct or delegated to a worker (where [signal]
    is deleted from the copy [fetchOptions]), and whether or not the
    timeout aborts the signal, every object that existed before the call,
    [options] included, has exactly the same properties afterwards. *)
Theorem fetchWithTimeout_preserves_options (h : heap) (url : jsstr)
    (l : positive) (o : jsobj) (worker : bool) (timeout : Z) (timed_out : bool) :
  h !! l = Some o ->
  fetchWithTimeout_after h url (JRef l) worker timeout timed_out !! l = Some o
  /\ frame h (fetchWithTimeout_after h url (JRef l) worker timeout timed_out).
Proof.
  intros Hl.
  assert (Hfr : frame h (fetchWithTimeout_after h url (JRef l) worker timeout timed_out)).
  { unfold fetchWithTimeout_after, fetchWithTimeout.
    set (o1 := [(js "aborted", JBool false)]).
    destruct (alloc h o1) as [signal h1] eqn:E1.
    pose proof (alloc_frame h o1) as F1. pose proof (alloc_fresh h o1) as N1.
    rewrite E1 in F1, N1. simpl in F1, N1.
    set (o2 := [(js "signal", JRef signal)]).
    destruct (alloc h1 o2) as [ctl h2] eqn:E2.
    pose proof (alloc_frame h1 o2) as F2. rewrite E2 in F2. simpl in F2.
    set (o3 := obj_set (spread h2 (JRef l)) (js "signal") (JRef signal)).
    destruct (alloc h2 o3) as [fo h3] eqn:E3.
    pose proof (alloc_frame h2 o3) as F3. pose proof (alloc_fresh h2 o3) as N3.
    rewrite E3 in F3, N3. simpl in F3, N3.
    pose proof (frame_trans _ _ _ F1 F2) as F12.
    pose proof (frame_trans _ _ _ F12 F3) as F.
    pose proof (frame_none _ _ fo F12 N3) as Nfo.
    pose proof (switchFetch_frame h h3 url fo timeout worker F Nfo) as F4.
    destruct timed_out; [|exact F4].
    now apply abort_signal_frame. }
  split; [now apply Hfr | exact Hfr].
Qed.

(** C10, witness: delegated mode with a timeout, on an options object that
    itself has a [signal] property. *)
Lemma fetchWithTimeout_preserves_options_witness :
  let h : heap := <[1%positive := [(js "method", JString (js "POST"));
                                   (js "signal", JNull)]]> ∅ in
  h !! 1%positive = Some [(js "method", JString (js "POST")); (js "signal", JNull)]
  /\ fetchWithTimeout_after h (js "https://tenant.auth0.com/oauth/token")
       (JRef 1%positive) true 10000 true !! 1%positive
     = Some [(js "method", JString (js "POST")); (js "signal", JNull)].
Proof.
  cbv zeta. split; [reflexivity|].
  apply (fetchWithTimeout_preserves_options _ _ 1%positive). reflexivity.
Defined.

(** C2 (corrected).  The base64url layer round-trips every byte array:
    [atob] of the un-url-safed encoding gives the octets back.  The full
    [urlDecodeB64 (bufferToBase64UrlEncoded bytes)] percent-escapes those
    octets and runs [decodeURIComponent] over them, so it recovers the data
    exactly when the bytes are the UTF-8 encoding of a string: for every
    sequence of Unicode scalar values [cps], encoding [utf8_encode cps]
    succeeds and decoding the result yields the UTF-16 string of [cps];
    for every other array of octets, encoding succeeds and decoding the
    result throws (a [URIError]). *)
Theorem base64url_utf8_roundtrip :
  (forall l, Forall byte l ->
     exists u, bufferToBase64UrlEncoded l = Some u /\ atob (urlUnsafe u) = Some l)
  /\ (forall cps, Forall scalar_value cps ->
     exists u, bufferToBase64UrlEncoded (utf8_encode cps) = Some u /\
               urlDecodeB64 u = Some (utf16_encode cps))
  /\ (forall l, Forall byte l ->
     (forall cps, Forall scalar_value cps -> utf8_encode cps <> l) ->
     exists u, bufferToBase64UrlEncoded l = Some u /\ urlDecodeB64 u = None).
Proof.
  split; [|split].
  3:{ intros l Hb Hn. exists (urlEncodeB64 (b64_encode l)). split.
      - now apply bufferToBase64UrlEncoded_bytes.
      - unfold urlDecodeB64, decodeB64. rewrite base64_layer_roundtrip by exact Hb.
        unfold decodeURIComponent.
        destruct (decode_fuel _ (flat_map pct l)) as [d|] eqn:E; [|reflexivity].
        destruct (decode_pct_inv _ _ _ Hb E) as (cps & Hc & Eu & _).
        exfalso. exact (Hn cps Hc Eu). }
  - intros l H. exists (urlEncodeB64 (b64_encode l)). split.
    + now apply bufferToBase64UrlEncoded_bytes.
    + now apply base64_layer_roundtrip.
  - intros cps H. pose proof (utf8_encode_bytes cps H) as Hb.
    exists (urlEncodeB64 (b64_encode (utf8_encode cps))). split.
    + now apply bufferToBase64UrlEncoded_bytes.
    + unfold urlDecodeB64, decodeB64.
      rewrite base64_layer_roundtrip by exact Hb.
      unfold decodeURIComponent. apply decode_utf8; [exact H | lia].
Qed.

(** C2: the one-byte array [[255]] encodes to ["_w"], and decoding ["_w"]
    throws: the octet 0xFF becomes ["%ff"], which is not UTF-8. *)
Lemma urlDecodeB64_invalid_utf8 :
  bufferToBase64UrlEncoded [255] = Some (js "_w") /\ urlDecodeB64 (js "_w") = None.
Proof. split; vm_compute; reflexivity. Qed.

(* ================================================================== *)
(** * Further properties of the code *)

(** X1.  [dedupe] removes repeated elements and keeps the first occurrence
    of each: its result has no duplicates and the same elements as its
    argument, and appending an element to the argument appends it to the
    result exactly when it is new. *)
Theorem dedupe_first_occurrences (arr : list jsstr) :
  List.NoDup (dedupe arr)
  /\ (forall x, In x (dedupe arr) <-> In x arr)
  /\ (forall x, In x arr -> dedupe (arr ++ [x]) = dedupe arr)
  /\ (forall x, ~ In x arr -> dedupe (arr ++ [x]) = dedupe arr ++ [x]).
Proof.
  split; [rewrite dedupe_keep_first; apply keep_first_NoDup|].
  split; [intros x; rewrite dedupe_keep_first, keep_first_In; simpl; tauto|].
  split; intros x Hx; rewrite !dedupe_keep_first, keep_first_app;
    cbn [keep_first app].
  - rewrite (proj2 (existsb_jsstr_eqb x arr) Hx). simpl. now rewrite app_nil_r.
  - destruct (existsb (jsstr_eqb x) arr) eqn:E; [|reflexivity].
    apply existsb_jsstr_eqb in E. contradiction.
Qed.

(** X2.  The words of [getUniqueScopes(...scopes)] (its non-empty pieces
    between spaces) are the tokens of the scope strings (their pieces
    between white space and commas), each once, in order of first
    occurrence. *)
Theorem getUniqueScopes_tokens (scopes : list jsstr) :
  words (getUniqueScopes scopes) = dedupe (flat_map scope_tokens scopes).
Proof.
  unfold getUniqueScopes. rewrite filter_truthy_list, <- scope_tokens_all.
  remember (split_on 44 (ws_to_comma (join (js ",")
              (List.filter (fun s => truthy (JString s)) scopes)))) as T eqn:ET.
  assert (HT : Forall (Forall (fun c => is_ws c = false)) T).
  { apply List.Forall_forall. intros f Hf. rewrite ET in Hf.
    eapply split_on_chars; [apply ws_to_comma_no_ws | exact Hf]. }
  assert (HD : Forall (Forall (fun c => is_ws c = false)) (dedupe T)).
  { rewrite dedupe_keep_first. apply List.Forall_forall. intros f Hf.
    apply keep_first_In in Hf as [Hf _]. rewrite List.Forall_forall in HT.
    now apply HT. }
  change (js " ") with [32].
  rewrite words_trim.
  2:{ apply Forall_join; [constructor; [reflexivity | constructor]|].
      eapply List.Forall_impl; [|exact HD]. intros f Hf.
      eapply List.Forall_impl; [|exact Hf]. intros c Hc Hw. congruence. }
  unfold words. rewrite split_on_join.
  - rewrite !dedupe_keep_first, <- keep_first_filter. reflexivity.
  - assert (Hne : T <> []) by (rewrite ET; apply split_on_ne).
    rewrite dedupe_keep_first. destruct T as [|x t]; [congruence|].
    simpl. discriminate.
  - eapply List.Forall_impl; [|exact HD]. intros f Hf Hin.
    rewrite List.Forall_forall in Hf. specialize (Hf 32 Hin). discriminate.
Qed.

(** X3. Whenever [encode] accepts a string (all its code units are at most
    255), [decode] turns its output back into that string. *)
Theorem decode_encode (value e : jsstr) :
  encode value = Some e -> decode e = Some value.
Proof.
  unfold encode, decode. intros H. apply btoa_some in H as [Hb ->].
  now apply atob_b64_encode.
Qed.

Lemma decode_encode_witness :
  encode (js "Hi!") = Some (js "SGkh") /\ decode (js "SGkh") = Some (js "Hi!").
Proof.
  split; [vm_compute; reflexivity|].
  apply (decode_encode (js "Hi!") (js "SGkh")). vm_compute. reflexivity.
Defined.

(** X4. [bufferToBase64UrlEncoded] never throws: for every input its result
    uses only the characters [A-Z], [a-z], [0-9], [-] and [_] (no padding),
    and an input of [n] elements gives [(4n + 2) / 3] characters. *)
Theorem bufferToBase64UrlEncoded_alphabet (input : list Z) :
  exists u, bufferToBase64UrlEncoded input = Some u
  /\ Forall (fun c => base64url_char c = true) u
  /\ length u = ((4 * length input + 2) / 3)%nat.
Proof.
  unfold bufferToBase64UrlEncoded.
  pose proof (byte_mod_256 input) as Hb.
  rewrite btoa_bytes by exact Hb.
  eexists. split; [reflexivity|].
  destruct (b64_encode_shape (map (fun z => z mod 256) input)) as (k & _ & E & _).
  rewrite E, urlEncodeB64_app, urlEncodeB64_pad, app_nil_r.
  destruct (urlEncodeB64_sextets _ (sextets_range _ Hb)) as [H1 H2].
  split; [exact H1|]. rewrite H2, b64_sextets_count, length_map. reflexivity.
Qed.

(** X5. In the object [parseQueryResult] returns, every key other than
    [expires_in] and [__proto__] holds the [decodeURIComponent] of the value
    of the last [&]-separated parameter with that key (before any [#]);
    a key that no parameter names is absent. *)
Theorem parseQueryResult_last_wins (queryString : jsstr) (r : jsobj) (k : jsstr) :
  parseQueryResult queryString = Some r ->
  k <> js "expires_in" -> k <> js "__proto__" ->
  obj_get r k =
    match find (fun qp => jsstr_eqb (key_of qp) k)
               (rev (split_on 38 (strip_fragment queryString))) with
    | None => None
    | Some qp => option_map JString (decodeURIComponent (to_string (val_of qp)))
    end.
Proof.
  unfold parseQueryResult, parsed_query. intros H Hexp Hproto.
  destruct (fill_query [] _) as [pq|] eqn:Hpq; [|discriminate].
  injection H as <-. rewrite obj_get_set, (jsstr_eqb_neq _ _ Hexp).
  exact (fill_query_last [] _ pq k Hpq Hproto).
Qed.

Lemma parseQueryResult_last_wins_witness :
  obj_get [(js "a", JString (js "3")); (js "b", JString (js "2"));
           (js "expires_in", JNumber JNaN)] (js "a")
  = Some (JString (js "3")).
Proof.
  rewrite (parseQueryResult_last_wins (js "a=1&b=2&a=3")
             [(js "a", JString (js "3")); (js "b", JString (js "2"));
              (js "expires_in", JNumber JNaN)] (js "a"));
    [vm_compute; reflexivity | vm_compute; reflexivity | discriminate | discriminate].
Defined.

(** X6. Reading back the text [createQueryParams] builds with
    [parseQueryResult]: each key of [params] whose value is defined appears,
    percent-encoded as [encodeURIComponent] encodes it, with the [ToString]
    of its value; a non-empty key whose value is [undefined] does not
    appear.  This holds for every key other than [expires_in] and
    [__proto__], when all keys and values are strings of UTF-16 code units. *)
Theorem createQueryParams_parseQueryResult
    (object_to_string : positive -> option jsstr) (params : jsobj) (q : jsstr) :
  params_strings object_to_string params ->
  createQueryParams object_to_string params = Some q ->
  exists r, parseQueryResult q = Some r /\
    forall k ek, Forall code_unit k -> encodeURIComponent k = Some ek ->
      k <> js "expires_in" -> k <> js "__proto__" ->
      (obj_read params k <> JUndefined ->
         obj_get r ek = option_map JString (to_str_val object_to_string (obj_read params k)))
      /\ (obj_read params k = JUndefined -> k <> [] -> obj_get r ek = None).
Proof.
  intros Hp Hq.
  destruct (createQueryParams_parts _ _ _ Hp Hq) as (parts & -> & Hout & Hin).
  (* each part: no [#], no [&], its key and its value *)
  assert (Hpart : forall y, In y parts ->
            exists k ek sv ev,
              obj_read params k <> JUndefined /\ Forall code_unit k
              /\ encodeURIComponent k = Some ek /\ to_str_val object_to_string
                   (obj_read params k) = Some sv
              /\ decodeURIComponent ev = Some sv
              /\ ~ In 35 y /\ ~ In 38 y /\ key_of y = ek /\ val_of y = JString ev).
  { intros y Hy.
    destruct (Hout y Hy) as (k & ek & sv & ev & Hd & Hck & Ek & Es & Hcs & Ev & ->).
    pose proof (encodeURIComponent_query_safe _ _ Hck Ek) as Sk.
    pose proof (encodeURIComponent_query_safe _ _ Hcs Ev) as Sv.
    destruct (query_part_fields ek ev Sk Sv) as (N35 & N38 & Hkey & Hval).
    exists k, ek, sv, ev. repeat split; auto.
    now apply decode_encodeURIComponent. }
  assert (Hstrip : strip_fragment (join [38] parts) = join [38] parts).
  { apply strip_fragment_none. intros Hin35.
    assert (F : Forall (fun c => c <> 35) (join [38] parts)).
    { apply Forall_join; [repeat constructor; lia|].
      apply List.Forall_forall. intros y Hy.
      destruct (Hpart y Hy) as (? & ? & ? & ? & _ & _ & _ & _ & _ & N35 & _).
      apply List.Forall_forall. intros c Hc E. subst c. contradiction. }
    rewrite List.Forall_forall in F. exact (F 35 Hin35 eq_refl). }
  assert (Hqps : parts <> [] -> split_on 38 (join [38] parts) = parts).
  { intros Hne. apply split_on_join; [exact Hne|].
    apply List.Forall_forall. intros y Hy.
    destruct (Hpart y Hy) as (? & ? & ? & ? & _ & _ & _ & _ & _ & _ & N38 & _).
    exact N38. }
  assert (Hqps0 : parts = [] -> split_on 38 (join [38] parts) = [[]])
    by (intros ->; reflexivity).
  unfold parseQueryResult, parsed_query. rewrite Hstrip.
  destruct (fill_query [] (split_on 38 (join [38] parts))) as [r0|] eqn:Hf.
  2:{ exfalso. apply fill_query_none in Hf as (qp & Hqp & Hdec).
      destruct parts as [|p0 ps].
      - rewrite Hqps0 in Hqp by reflexivity. destruct Hqp as [<-|[]].
        vm_compute in Hdec. discriminate.
      - rewrite Hqps in Hqp by discriminate.
        destruct (Hpart qp Hqp) as (_ & _ & sv & ev & _ & _ & _ & _ & Hd & _ & _ & _ & Hv).
        rewrite Hv in Hdec. cbn [to_string] in Hdec. congruence. }
  eexists. split; [reflexivity|].
  intros k ek Hck Ek Hexp Hproto.
  assert (Hdk : decodeURIComponent ek = Some k)
    by (now apply decode_encodeURIComponent).
  assert (Hexp' : ek <> js "expires_in").
  { intros ->. apply Hexp. vm_compute in Hdk. injection Hdk as <-. reflexivity. }
  assert (Hproto' : ek <> js "__proto__").
  { intros ->. apply Hproto. vm_compute in Hdk. injection Hdk as <-. reflexivity. }
  rewrite obj_get_set, (jsstr_eqb_neq _ _ Hexp').
  rewrite (fill_query_last [] _ r0 ek Hf Hproto').
  (* a parameter with key [ek] is the one of [k] *)
  assert (Hsame : forall y, In y parts -> key_of y = ek ->
            obj_read params k <> JUndefined
            /\ exists sv ev, to_str_val object_to_string (obj_read params k) = Some sv
               /\ decodeURIComponent ev = Some sv /\ val_of y = JString ev).
  { intros y Hy Hky.
    destruct (Hpart y Hy)
      as (k' & ek' & sv & ev & Hd & Hck' & Ek' & Es & Hdv & _ & _ & Hkey & Hval).
    rewrite Hkey in Hky. subst ek'.
    assert (k' = k) as -> by exact (encodeURIComponent_inj _ _ _ Hck' Hck Ek' Ek).
    split; [exact Hd|]. exists sv, ev. auto. }
  split.
  - intros Hd.
    destruct (Hin k Hd) as (y & Hy & ek0 & sv0 & ev0 & Ek0 & Es0 & Ev0 & Ey).
    rewrite Hqps by (intros E; rewrite E in Hy; destruct Hy).
    destruct (find (fun qp => jsstr_eqb (key_of qp) ek) (rev parts)) as [qp|] eqn:F.
    + apply find_some in F as [Hqp Hk]. apply in_rev in Hqp.
      apply jsstr_eqb_spec in Hk.
      destruct (Hsame qp Hqp Hk) as (_ & sv & ev & Es & Hdv & Hv).
      rewrite Hv, Es. cbn [to_string]. rewrite Hdv. reflexivity.
    + exfalso.
      assert (Hky : key_of y = ek).
      { rewrite Ek in Ek0. injection Ek0 as <-. subst y.
        destruct (params_strings_read _ _ k Hp Hd) as [_ Hcv].
        pose proof (encodeURIComponent_query_safe _ _ Hck Ek) as S1.
        pose proof (encodeURIComponent_query_safe _ _ (Hcv sv0 Es0) Ev0) as S2.
        now destruct (query_part_fields _ _ S1 S2) as (_ & _ & K & _). }
      pose proof (find_none _ _ F y (proj1 (in_rev _ _) Hy)) as N. cbv beta in N.
      rewrite Hky, jsstr_eqb_refl in N. discriminate.
  - intros Hd Hne.
    destruct (find (fun qp => jsstr_eqb (key_of qp) ek)
                   (rev (split_on 38 (join [38] parts)))) as [qp|] eqn:F; [|reflexivity].
    exfalso. apply find_some in F as [Hqp Hk]. apply in_rev in Hqp.
    apply jsstr_eqb_spec in Hk.
    destruct parts as [|p0 ps].
    + rewrite Hqps0 in Hqp by reflexivity. destruct Hqp as [<-|[]].
      cbn in Hk. subst ek. vm_compute in Hdk. congruence.
    + rewrite Hqps in Hqp by discriminate.
      destruct (Hsame qp Hqp Hk) as (Hd' & _). contradiction.
Qed.

Lemma createQueryParams_parseQueryResult_witness :
  createQueryParams (fun _ => None)
    [(js "a b", JString (js "x&y")); (js "n", JNumber (JInt 5)); (js "u", JUndefined)]
  = Some (js "a%20b=x%26y&n=5")
  /\ exists r, parseQueryResult (js "a%20b=x%26y&n=5") = Some r
     /\ obj_get r (js "a%20b") = Some (JString (js "x&y"))
     /\ obj_get r (js "u") = None.
Proof.
  assert (Hq : createQueryParams (fun _ => None)
    [(js "a b", JString (js "x&y")); (js "n", JNumber (JInt 5)); (js "u", JUndefined)]
    = Some (js "a%20b=x%26y&n=5")) by (vm_compute; reflexivity).
  split; [exact Hq|].
  destruct (createQueryParams_parseQueryResult (fun _ => None)
     [(js "a b", JString (js "x&y")); (js "n", JNumber (JInt 5)); (js "u", JUndefined)]
     (js "a%20b=x%26y&n=5")) as (r & Hr & Hall).
  - unfold params_strings.
    repeat (apply List.Forall_cons; [split; [cbn; repeat constructor; unfold code_unit; lia|];
                                intros sv Hsv; vm_compute in Hsv; injection Hsv as <-;
                                repeat constructor; unfold code_unit; lia|]).
    apply List.Forall_nil.
  - exact Hq.
  - exists r. split; [exact Hr|].
    destruct (Hall (js "a b") (js "a%20b")) as [Hdef _];
      [repeat constructor; unfold code_unit; lia | vm_compute; reflexivity
      | discriminate | discriminate |].
    destruct (Hall (js "u") (js "u")) as [_ Hundef];
      [repeat constructor; unfold code_unit; lia | vm_compute; reflexivity
      | discriminate | discriminate |].
    split.
    + rewrite Hdef by discriminate. vm_compute. reflexivity.
    + apply Hundef; [vm_compute; reflexivity | discriminate].
Defined.

(** X7. The request [oauthToken] sends: the url is [ToString(baseUrl)]
    followed by [/oauth/token], the timeout is the caller's [timeout], and
    the body holds the caller's other properties unchanged, without
    [baseUrl] and [timeout], with [redirect_uri] set to
    [window.location.origin] only when the caller gives none (a caller's
    [redirect_uri], even [undefined], is kept). *)
Theorem oauthToken_request_body (object_to_string : positive -> option jsstr)
    (arg : jsobj) (origin : jsstr) (r : token_request) :
  List.NoDup (map fst arg) ->
  oauthToken_request object_to_string arg origin = Some r ->
  (exists baseUrl, to_str_val object_to_string (obj_read arg (js "baseUrl")) = Some baseUrl
                   /\ tr_url r = baseUrl ++ js "/oauth/token")
  /\ tr_timeout r = obj_read arg (js "timeout")
  /\ tr_method r = js "POST"
  /\ obj_get (tr_body r) (js "baseUrl") = None
  /\ obj_get (tr_body r) (js "timeout") = None
  /\ obj_get (tr_body r) (js "redirect_uri")
     = Some (match obj_get arg (js "redirect_uri") with
             | Some v => v
             | None => JString origin
             end)
  /\ (forall k, k <> js "baseUrl" -> k <> js "timeout" -> k <> js "redirect_uri" ->
       obj_get (tr_body r) k = obj_get arg k).
Proof.
  intros Hnd H. unfold oauthToken_request in H.
  destruct (to_str_val object_to_string (obj_read arg (js "baseUrl"))) as [b|] eqn:Eb;
    [|discriminate].
  injection H as <-. cbn [tr_url tr_timeout tr_method tr_body].
  set (q := fun k => negb (jsstr_eqb k (js "baseUrl")) && negb (jsstr_eqb k (js "timeout"))).
  change (fun kv : jsstr * jsval => negb (jsstr_eqb (fst kv) (js "baseUrl"))
                                    && negb (jsstr_eqb (fst kv) (js "timeout")))
    with (fun kv : jsstr * jsval => q (fst kv)).
  assert (Hget : forall k, obj_get (obj_assign [(js "redirect_uri", JString origin)]
                                     (List.filter (fun kv => q (fst kv)) arg)) k
                 = match (if q k then obj_get arg k else None) with
                   | Some v => Some v
                   | None => obj_get [(js "redirect_uri", JString origin)] k
                   end).
  { intros k. rewrite obj_assign_get by now apply NoDup_filter_keys.
    now rewrite obj_get_filter_keys. }
  split; [now exists b|]. split; [reflexivity|]. split; [reflexivity|].
  split; [rewrite Hget; reflexivity|]. split; [rewrite Hget; reflexivity|].
  split.
  { rewrite Hget. replace (q (js "redirect_uri")) with true by (vm_compute; reflexivity).
    destruct (obj_get arg (js "redirect_uri")); [reflexivity|].
    cbn [obj_get]. now rewrite jsstr_eqb_refl. }
  intros k H1 H2 H3. rewrite Hget. unfold q.
  rewrite (jsstr_eqb_neq _ _ H1), (jsstr_eqb_neq _ _ H2). cbn [negb andb].
  destruct (obj_get arg k); [reflexivity|]. cbn [obj_get].
  now rewrite (jsstr_eqb_neq _ _ H3).
Qed.

Lemma oauthToken_request_body_witness :
  exists r, oauthToken_request (fun _ => None)
              [(js "baseUrl", JString (js "https://t.example")); (js "timeout", JNumber (JInt 10));
               (js "code", JString (js "c"))] (js "https://app") = Some r
    /\ tr_url r = js "https://t.example/oauth/token"
    /\ obj_get (tr_body r) (js "redirect_uri") = Some (JString (js "https://app"))
    /\ obj_get (tr_body r) (js "timeout") = None.
Proof.
  destruct (oauthToken_request (fun _ => None)
              [(js "baseUrl", JString (js "https://t.example")); (js "timeout", JNumber (JInt 10));
               (js "code", JString (js "c"))] (js "https://app")) as [r|] eqn:E;
    [|vm_compute in E; discriminate].
  exists r. split; [reflexivity|].
  destruct (oauthToken_request_body (fun _ => None)
              [(js "baseUrl", JString (js "https://t.example")); (js "timeout", JNumber (JInt 10));
               (js "code", JString (js "c"))] (js "https://app") r)
    as ((b & Eb & Hurl) & _ & _ & _ & Ht & Hr & _);
    [repeat constructor; cbn; intuition discriminate | exact E |].
  vm_compute in Eb. injection Eb as <-.
  split; [exact Hurl|]. split; [exact Hr | exact Ht].
Defined.

(** X8. [validateCrypto] throws its first error exactly when both
    [window.crypto] and [window.msCrypto] are falsy, and no [TypeError]
    escapes from it.  For a crypto object it passes exactly when [subtle]
    is truthy or [webkitSubtle] is not [undefined] (a [null] or other falsy
    [webkitSubtle] passes). *)
Theorem validateCrypto_outcome (h : heap) (w : window_crypto) :
  validateCrypto h w <> CryptoTypeError
  /\ (validateCrypto h w = NoCrypto <->
        truthy (w_crypto w) = false /\ truthy (w_msCrypto w) = false)
  /\ (forall l, getCrypto w = JRef l ->
        validateCrypto h w = CryptoOk <->
          truthy (obj_read (default [] (h !! l)) (js "subtle")) = true
          \/ obj_read (default [] (h !! l)) (js "webkitSubtle") <> JUndefined).
Proof.
  assert (Htr : truthy (getCrypto w) = false <->
                truthy (w_crypto w) = false /\ truthy (w_msCrypto w) = false).
  { unfold getCrypto. destruct (truthy (w_crypto w)) eqn:E; [|tauto].
    rewrite E. split; [discriminate | intros [? _]; discriminate]. }
  unfold validateCrypto, getCryptoSubtle.
  split; [|split].
  - destruct (getCrypto w) as [| |b|[|z]|[|c s]|l]; cbn [negb truthy get_prop];
      repeat match goal with |- context [if ?b then _ else _] => destruct b end;
      discriminate.
  - rewrite <- Htr. destruct (truthy (getCrypto w)); cbn [negb]; [|tauto].
    split; [|discriminate]. intros H.
    destruct (get_prop h (getCrypto w) (js "subtle")) as [s|]; [|discriminate].
    destruct (truthy s); [destruct (typeof_undefined s); discriminate|].
    destruct (get_prop h (getCrypto w) (js "webkitSubtle")) as [s'|]; [|discriminate].
    destruct (typeof_undefined s'); discriminate.
  - intros l E. rewrite E. cbn [truthy negb get_prop].
    set (o := default [] (h !! l)).
    destruct (truthy (obj_read o (js "subtle"))) eqn:S.
    + destruct (obj_read o (js "subtle")); cbn [typeof_undefined];
        try (cbn in S; discriminate); intuition.
    + destruct (obj_read o (js "webkitSubtle")); cbn [typeof_undefined];
        intuition (try discriminate; try congruence).
Qed.

(** X9. With a worker, [fetchWithTimeout] hands the worker a new object
    built from the caller's options: it has no [signal], its [url] and
    [timeout] are the call's unless the options have their own [url] or
    [timeout] (the spread overrides them), and every other property is the
    options' own. *)
Theorem fetchWithTimeout_worker_message (h : heap) (url : jsstr) (l : positive)
    (o : jsobj) (timeout : Z) :
  h !! l = Some o -> List.NoDup (map fst o) ->
  exists m msg, h !! m = None
  /\ fst (fetchWithTimeout h url (JRef l) true timeout) !! m = Some msg
  /\ obj_get msg (js "signal") = None
  /\ obj_get msg (js "url")
     = Some (match obj_get o (js "url") with Some v => v | None => JString url end)
  /\ obj_get msg (js "timeout")
     = Some (match obj_get o (js "timeout") with
             | Some v => v
             | None => JNumber (JInt timeout)
             end)
  /\ (forall k, k <> js "signal" -> k <> js "url" -> k <> js "timeout" ->
        obj_get msg k = obj_get o k).
Proof.
  intros Hl Hnd. unfold fetchWithTimeout.
  set (o1 := [(js "aborted", JBool false)]).
  destruct (alloc h o1) as [signal h1] eqn:E1.
  pose proof (alloc_frame h o1) as F1. rewrite E1 in F1. cbn [fst snd] in F1.
  set (o2 := [(js "signal", JRef signal)]).
  destruct (alloc h1 o2) as [ctl h2] eqn:E2.
  pose proof (alloc_frame h1 o2) as F2. rewrite E2 in F2. cbn [fst snd] in F2.
  pose proof (frame_trans _ _ _ F1 F2) as F12.
  assert (Hsp : spread h2 (JRef l) = o)
    by exact (f_equal (default []) (F12 l o Hl)).
  rewrite Hsp.
  set (o3 := obj_set o (js "signal") (JRef signal)).
  destruct (alloc h2 o3) as [fo h3] eqn:E3.
  pose proof (alloc_frame h2 o3) as F3. pose proof (alloc_fresh h2 o3) as N3.
  pose proof (alloc_lookup h2 o3) as L3.
  rewrite E3 in F3, N3, L3. cbn [fst snd] in F3, N3, L3.
  pose proof (frame_none _ _ fo F12 N3) as Nfo.
  pose proof (frame_trans _ _ _ F12 F3) as F.
  cbn [fst]. unfold switchFetch.
  change (@lookup positive (list (jsstr * jsval)) _ _ fo h3) with (h3 !! fo).
  rewrite L3. cbv [default from_option id].
  set (h4 := <[fo := obj_delete o3 (js "signal")]> h3).
  assert (L4 : h4 !! fo = Some (obj_delete o3 (js "signal")))
    by apply lookup_insert_eq.
  change (@lookup positive (list (jsstr * jsval)) _ _ fo h4) with (h4 !! fo).
  rewrite L4. cbv [default from_option id].
  set (msg := obj_assign [(js "url", JString url); (js "timeout", JNumber (JInt timeout))]
                         (obj_delete o3 (js "signal"))).
  exists (fst (alloc h4 msg)), msg.
  assert (F4 : frame h h4) by (now apply frame_insert_outside).
  split; [exact (frame_none _ _ _ F4 (alloc_fresh h4 msg))|].
  split; [apply alloc_lookup|].
  assert (Hnd3 : List.NoDup (map fst (obj_delete o3 (js "signal"))))
    by (apply NoDup_obj_delete, NoDup_obj_set, Hnd).
  assert (Hget : forall k, obj_get msg k =
            match (if jsstr_eqb k (js "signal") then None else obj_get o k) with
            | Some v => Some v
            | None => obj_get [(js "url", JString url); (js "timeout", JNumber (JInt timeout))] k
            end).
  { intros k. unfold msg. rewrite obj_assign_get by exact Hnd3.
    rewrite obj_get_delete. unfold o3. rewrite obj_get_set.
    destruct (jsstr_eqb k (js "signal")); reflexivity. }
  split; [rewrite Hget; reflexivity|].
  split.
  { rewrite Hget.
    replace (jsstr_eqb (js "url") (js "signal")) with false by (vm_compute; reflexivity).
    destruct (obj_get o (js "url")); [reflexivity|].
    cbn [obj_get]. now rewrite jsstr_eqb_refl. }
  split.
  { rewrite Hget.
    replace (jsstr_eqb (js "timeout") (js "signal")) with false by (vm_compute; reflexivity).
    destruct (obj_get o (js "timeout")); [reflexivity|].
    cbn [obj_get].
    replace (jsstr_eqb (js "timeout") (js "url")) with false by (vm_compute; reflexivity).
    now rewrite jsstr_eqb_refl. }
  intros k H1 H2 H3. rewrite Hget, (jsstr_eqb_neq _ _ H1).
  destruct (obj_get o k); [reflexivity|]. cbn [obj_get].
  now rewrite (jsstr_eqb_neq _ _ H2), (jsstr_eqb_neq _ _ H3).
Qed.

Lemma fetchWithTimeout_worker_message_witness :
  exists m msg,
    fst (fetchWithTimeout (<[1%positive := [(js "method", JString (js "POST"))]]> ∅)
           (js "https://t.example/oauth/token") (JRef 1) true 10000) !! m = Some msg
    /\ obj_get msg (js "method") = Some (JString (js "POST"))
    /\ obj_get msg (js "signal") = None.
Proof.
  destruct (fetchWithTimeout_worker_message
              (<[1%positive := [(js "method", JString (js "POST"))]]> ∅)
              (js "https://t.example/oauth/token") 1 [(js "method", JString (js "POST"))]
              10000)
    as (m & msg & _ & Hm & Hs & _ & _ & Hk);
    [vm_compute; reflexivity | repeat constructor; cbn; tauto |].
  exists m, msg. split; [exact Hm|]. split; [|exact Hs].
  apply Hk; discriminate.
Defined.

(** X10. [decode] does not need the padding [encode] adds: removing every
    [=] from the output of [encode] still decodes to the original string. *)
Theorem decode_unpadded (value e : jsstr) :
  encode value = Some e -> decode (List.filter (fun c => negb (c =? 61)) e) = Some value.
Proof.
  unfold encode, decode. intros H. apply btoa_some in H as [Hb ->].
  pose proof (sextets_range _ Hb) as Hs.
  destruct (b64_encode_shape value) as (k & _ & E & _). rewrite E.
  rewrite filter_pad_sextets by exact Hs.
  rewrite atob_sextets by (exact Hs || apply b64_sextets_length).
  now rewrite decode_sextets_roundtrip by exact Hb.
Qed.

Lemma decode_unpadded_witness :
  encode (js "Hi") = Some (js "SGk=") /\ decode (js "SGk") = Some (js "Hi").
Proof.
  split; [vm_compute; reflexivity|].
  exact (decode_unpadded (js "Hi") (js "SGk=") ltac:(vm_compute; reflexivity)).
Defined.

(** X11. [getUniqueScopes] is idempotent: applied to its own result it
    returns that result unchanged. *)
Theorem getUniqueScopes_idempotent (scopes : list jsstr) :
  getUniqueScopes [getUniqueScopes scopes] = getUniqueScopes scopes.
Proof.
  assert (Hg : forall s, getUniqueScopes [s] =
            trim (join [32] (dedupe (split_on 44 (ws_to_comma
              (join (js ",") (List.filter (fun s => truthy (JString s)) [s]))))))).
  { intros s. unfold getUniqueScopes. now rewrite filter_truthy_list. }
  unfold getUniqueScopes at 2 3. rewrite filter_truthy_list. change (js " ") with [32].
  remember (split_on 44 (ws_to_comma (join (js ",")
              (List.filter (fun s => truthy (JString s)) scopes)))) as T eqn:ET.
  assert (HT : Forall no_ws T /\ Forall (fun f => ~ In 44 f) T).
  { split; [|rewrite ET; apply split_on_fields].
    apply List.Forall_forall. intros f Hf. rewrite ET in Hf.
    eapply split_on_chars; [apply ws_to_comma_no_ws | exact Hf]. }
  set (E := trim_tokens (dedupe T)).
  assert (HE : Forall no_ws E /\ Forall (fun f => ~ In 44 f) E /\ List.NoDup E).
  { destruct HT as [HT1 HT2]. rewrite List.Forall_forall in HT1, HT2.
    split; [|split].
    - apply List.Forall_forall. intros f Hf.
      apply trim_tokens_In in Hf. rewrite dedupe_keep_first in Hf.
      apply keep_first_In in Hf as [Hf _]. auto.
    - apply List.Forall_forall. intros f Hf.
      apply trim_tokens_In in Hf. rewrite dedupe_keep_first in Hf.
      apply keep_first_In in Hf as [Hf _]. auto.
    - apply trim_tokens_NoDup. rewrite dedupe_keep_first. apply keep_first_NoDup. }
  destruct HE as (HE1 & HE2 & HE3).
  assert (HD : Forall no_ws (dedupe T)).
  { destruct HT as [HT1 _]. rewrite List.Forall_forall in HT1 |- *. intros f Hf.
    rewrite dedupe_keep_first in Hf. apply keep_first_In in Hf as [Hf _]. auto. }
  rewrite (trim_join _ HD). fold E. rewrite Hg.
  assert (Hsh : E = [] \/ exists c x t, E = (c :: x) :: t).
  { unfold E. rewrite <- trim_tokens_drop. apply drop_empty_shape. }
  destruct Hsh as [H0 | (c & x & t & Hc)].
  - rewrite H0. reflexivity.
  - assert (Hne : truthy (JString (join [32] E)) = true).
    { rewrite Hc. destruct t; reflexivity. }
    cbn [List.filter]. rewrite Hne. cbn [join].
    change (js " ") with [32].
    rewrite ws_to_comma_join_space.
    replace (map ws_to_comma E) with E.
    2:{ clear -HE1. induction HE1 as [|f l Hf _ IH]; [reflexivity|].
        cbn [map]. now rewrite ws_to_comma_no_ws_id, <- IH by exact Hf. }
    rewrite split_on_join by (exact HE2 || (rewrite Hc; discriminate)).
    rewrite dedupe_keep_first, keep_first_id by (exact HE3 || (intros ? ? []; fail)).
    rewrite trim_join by exact HE1. unfold E. now rewrite trim_tokens_idem.
Qed.

(** X12. [getJSON] never reaches the destructuring of an undefined
    [response]: the retry loop runs at least once, so it always ends with
    either a fetch error to rethrow or a response. *)
Theorem getJSON_no_destructure_error (object_to_string : positive -> jsstr)
    (url : jsstr) (fetch : nat -> attempt) :
  fst (getJSON object_to_string url fetch) <> Throw DestructureError.
Proof.
  unfold getJSON.
  pose proof (fetch_loop_settles fetch DEFAULT_SILENT_TOKEN_RETRY_COUNT 0 None None
                ltac:(unfold DEFAULT_SILENT_TOKEN_RETRY_COUNT; lia)) as H.
  destruct (fetch_loop fetch DEFAULT_SILENT_TOKEN_RETRY_COUNT 0 None None)
    as [[[e|] [r|]] calls]; cbn [fst]; try discriminate; try contradiction.
  unfold respond. destruct (body_props (json r)); [destruct (negb (ok r))|];
    discriminate.
Qed.

(** X13. In [runIframe], a settled promise is never settled again and a
    removed iframe is never put back: from any state, whatever messages,
    timeout and cleanup callbacks follow, the settled value and the
    iframe's absence from the body are kept. *)
Theorem runIframe_settled_removed_stable (eventOrigin : jsstr) (s : iframe_state)
    (evs : list iframe_event) :
  (if_promise s <> Pending ->
     if_promise (run_iframe eventOrigin s evs) = if_promise s)
  /\ (if_in_body s = false -> if_in_body (run_iframe eventOrigin s evs) = false).
Proof.
  unfold run_iframe. revert s. induction evs as [|ev evs IH]; intros s; [tauto|].
  cbn [fold_left].
  destruct (iframe_step_settled_out eventOrigin s ev) as [H1 H2].
  destruct (IH (iframe_step eventOrigin s ev)) as [IH1 IH2]. split.
  - intros Hp. rewrite IH1; rewrite H1; congruence.
  - intros Hb. apply IH2, H2, Hb.
Qed.

(** X13, witness: after a response has fulfilled the attempt, a late
    timeout, cleanup and second response change nothing; after the timeout
    has removed the iframe, nothing puts it back. *)
Lemma runIframe_settled_removed_stable_witness :
  let o := js "https://tenant.auth0.com" in
  let ok := {| ev_origin := o;
               ev_data := DataObj (JString (js "authorization_response"))
                            (Some [(js "code", JString (js "abc"))]);
               ev_has_source := true |} in
  let s1 := run_iframe o runIframe_start [IMessage ok] in
  let s2 := run_iframe o runIframe_start [ITimeoutFires] in
  let evs := [ITimeoutFires; ICleanupFires; IMessage ok] in
  if_promise (run_iframe o s1 evs) = if_promise s1
  /\ if_in_body (run_iframe o s2 evs) = false.
Proof.
  intros o ok s1 s2 evs. split.
  - apply (proj1 (runIframe_settled_removed_stable o s1 evs)).
    vm_compute. discriminate.
  - apply (proj2 (runIframe_settled_removed_stable o s2 evs)).
    vm_compute. reflexivity.
Defined.
